(** * Apertus: gate node and gateway sketches

    A shallow embedding of [Apertus_Gate.ino] (the field node) and
    [Apertus_Gateway.ino] (the radio/serial bridge).  The sketches are
    single-threaded Arduino programs; every call into the Arduino core or the
    RFM69 driver is recorded as an [event] of a trace, and the few globals the
    sketches own are threaded through a small state monad. *)

From Stdlib Require Import ZArith QArith Qround Qabs Lqa.
From Stdlib Require Import List Bool String Ascii Lia.
From Stdlib Require Import DecimalString.
From Stdlib Require Import Floats.SpecFloat.
Import ListNotations.

Local Open Scope string_scope.
Local Open Scope Z_scope.

(** ** The Arduino world *)

Inductive level : Type := LOW | HIGH.

Inductive pin_mode : Type := OUTPUT | INPUT_PULLUP.

(** One constructor per call that leaves the sketch.  [RadioSend] carries the
    buffer handed to [sendWithRetry] and the length argument next to it. *)
Inductive event : Type :=
| PinMode (pin : Z) (m : pin_mode)
| DigitalWrite (pin : Z) (l : level)
| Delay (ms : Z)
| AnalogReference
| SerialBegin (baud : Z)
| SerialWrite (s : string)
| SpiBegin
| RadioInitialize (freq node net : Z)
| RadioSetHighPower
| RadioEncrypt (key : string)
| RadioEnableAutoPower (on : bool)
| RadioSend (dest : Z) (buf : string) (len : Z).

Definition level_eqb (a b : level) : bool :=
  match a, b with
  | LOW, LOW | HIGH, HIGH => true
  | _, _ => false
  end.

(** A frame as the RFM69 driver exposes it after [receiveDone]: [SENDERID],
    the [DATALEN] valid bytes of [DATA], and the RSSI of the reception. *)
Record frame : Type := mkFrame {
  SENDERID : Z;
  DATA : list ascii;
  RSSI : Z
}.

Definition DATALEN (f : frame) : Z := Z.of_nat (List.length (DATA f)).

(** ** State monad over the sketch's globals *)

Section StateMonad.
Context {S : Type}.

Definition M (A : Type) : Type := S -> A * S.

Definition ret {A} (a : A) : M A := fun s => (a, s).

Definition bind {A B} (c : M A) (k : A -> M B) : M B :=
  fun s => let (a, s') := c s in k a s'.

Definition gets {A} (f : S -> A) : M A := fun s => (f s, s).

Definition modify (f : S -> S) : M unit := fun s => (tt, f s).

Definition exec {A} (c : M A) (s : S) : S := snd (c s).

Definition when (b : bool) (c : M unit) : M unit :=
  if b then c else ret tt.

Fixpoint for_each {A} (f : A -> M unit) (l : list A) : M unit :=
  match l with
  | [] => ret tt
  | a :: l' => bind (f a) (fun _ => for_each f l')
  end.
End StateMonad.

Notation "x <- c ;; k" := (bind c (fun x => k))
  (at level 61, c at next level, right associativity).
Notation "c ;; k" := (bind c (fun _ => k))
  (at level 61, right associativity).

(** ** C strings

    A [string] stands for a NUL-terminated C string: the characters before
    the terminator. *)

Module CStr.

Definition NUL : ascii := "000"%char.
Definition CR : ascii := "013"%char.
Definition LF : ascii := "010"%char.

Definition code (c : ascii) : Z := Z.of_N (N_of_ascii c).

(** The C string held by a byte buffer: everything before the first NUL. *)
Fixpoint c_str (buf : list ascii) : string :=
  match buf with
  | [] => EmptyString
  | c :: r => if Ascii.eqb c NUL then EmptyString else String c (c_str r)
  end.

Fixpoint strlen (s : string) : Z :=
  match s with
  | EmptyString => 0
  | String _ r => 1 + strlen r
  end.

(** [strcmp]: difference of the first pair of differing bytes, read as
    unsigned chars; the terminator counts as 0. *)
Fixpoint strcmp (a b : string) : Z :=
  match a, b with
  | EmptyString, EmptyString => 0
  | EmptyString, String y _ => - code y
  | String x _, EmptyString => code x
  | String x a', String y b' =>
      if Ascii.eqb x y then strcmp a' b' else code x - code y
  end.

Fixpoint strncmp (a b : string) (n : nat) : Z :=
  match n with
  | O => 0
  | S n' =>
      match a, b with
      | EmptyString, EmptyString => 0
      | EmptyString, String y _ => - code y
      | String x _, EmptyString => code x
      | String x a', String y b' =>
          if Ascii.eqb x y then strncmp a' b' n' else code x - code y
      end
  end.

(** [strchr s c] for a non-NUL [c]: the suffix starting at the first [c]. *)
Fixpoint strchr (s : string) (c : ascii) : option string :=
  match s with
  | EmptyString => None
  | String x r => if Ascii.eqb x c then Some s else strchr r c
  end.

(** Pointer arithmetic [s + n] inside the string. *)
Fixpoint advance (s : string) (n : nat) {struct n} : string :=
  match n, s with
  | O, _ => s
  | S n', String _ r => advance r n'
  | S _, EmptyString => EmptyString
  end.

(** The first [n] bytes of [s] ([memcpy] of a prefix). *)
Fixpoint take (n : nat) (s : string) : string :=
  match n, s with
  | O, _ => EmptyString
  | S _, EmptyString => EmptyString
  | S n', String c r => String c (take n' r)
  end.

Definition isspace (c : ascii) : bool :=
  let k := code c in (k =? 32) || ((9 <=? k) && (k <=? 13)).

Definition isdigit (c : ascii) : bool :=
  let k := code c in (48 <=? k) && (k <=? 57).

Fixpoint skip_spaces (s : string) : string :=
  match s with
  | String c r => if isspace c then skip_spaces r else s
  | EmptyString => s
  end.

Fixpoint digits_value (s : string) (acc : Z) : Z :=
  match s with
  | String c r =>
      if isdigit c then digits_value r (acc * 10 + (code c - 48)) else acc
  | EmptyString => acc
  end.

(** Two's-complement reduction to the 16-bit [int] of the AVR. *)
Definition to_int16 (z : Z) : Z := (z + 32768) mod 65536 - 32768.

Definition to_uint8 (z : Z) : Z := z mod 256.

(** [atoi]: leading white space, an optional sign, then decimal digits;
    the accumulation wraps in the 16-bit [int]. *)
Definition atoi (s : string) : Z :=
  match skip_spaces s with
  | String c r =>
      if Ascii.eqb c "-"%char then to_int16 (- digits_value r 0)
      else if Ascii.eqb c "+"%char then to_int16 (digits_value r 0)
      else to_int16 (digits_value (String c r) 0)
  | EmptyString => to_int16 0
  end.

Definition QUOTE : ascii := "034"%char.
Definition BACKSLASH : ascii := "092"%char.

Definition CRLF : string := String CR (String LF EmptyString).

(** A text between double quotes, as the JSON literals of the sketches
    spell their keys and string values. *)
Definition quoted (s : string) : string :=
  String QUOTE (s ++ String QUOTE EmptyString)%string.

(** Decimal rendering used by [Serial.print(int)] and [%d]. *)
Definition dec (z : Z) : string := NilZero.string_of_int (Z.to_int z).

End CStr.

(** ** Single-precision arithmetic

    [float] on the AVR is IEEE binary32.  The operations are the ones of the
    standard library's executable specification, at precision 24. *)

Module F32.

Definition prec : Z := 24.
Definition emax : Z := 128.

Definition float : Type := spec_float.

Definition add : float -> float -> float := SFadd prec emax.
Definition sub : float -> float -> float := SFsub prec emax.
Definition mul : float -> float -> float := SFmul prec emax.
Definition div : float -> float -> float := SFdiv prec emax.
Definition leb : float -> float -> bool := SFleb.
Definition ltb : float -> float -> bool := SFltb.

(** Conversion of an integer to [float], rounding to nearest. *)
Definition of_int (z : Z) : float := binary_normalize prec emax z 0 false.

(** The literal [num/den] with an [f] suffix: the binary32 value nearest to
    the decimal fraction (both integers are below [2^24], so the correctly
    rounded quotient is that value). *)
Definition lit (num den : Z) : float := div (of_int num) (of_int den).

(** The integer part of a finite value, rounding toward zero. *)
Definition trunc (f : float) : option Z :=
  match f with
  | S754_zero _ => Some 0
  | S754_finite s m e =>
      let a := match e with
               | Z0 => Zpos m
               | Zpos _ => Z.shiftl (Zpos m) e
               | Zneg p => Z.shiftr (Zpos m) (Zpos p)
               end in
      Some (if s then - a else a)
  | S754_infinity _ | S754_nan => None
  end.

(** The cast [(int) f] to the 16-bit [int]: defined only when the integer
    part is representable; otherwise the behaviour is undefined in C and the
    model gives [None]. *)
Definition to_int (f : float) : option Z :=
  match trunc f with
  | Some z => if (-32768 <=? z) && (z <=? 32767) then Some z else None
  | None => None
  end.

(** The position of a non-negative canonical value in the increasing
    enumeration of binary32 values (its bit pattern read as an integer). *)
Definition ord (f : float) : Z :=
  match f with
  | S754_finite false m e => (e + 149) * 8388608 + Zpos m
  | _ => 0
  end.

(** The positive normal value at position [z]. *)
Definition unord (z : Z) : float :=
  S754_finite false (Z.to_pos (8388608 + z mod 8388608)) (z / 8388608 - 150).


(** The rational a finite value stands for. *)
Definition to_Q (f : float) : Q :=
  match f with
  | S754_finite s m e =>
      let n := if s then Zneg m else Zpos m in
      match e with
      | Z0 => n # 1
      | Zpos _ => (n * 2 ^ e) # 1
      | Zneg p => n # (2 ^ p)
      end
  | _ => 0 # 1
  end.

(** The nearest integer, halves going up. *)
Definition round_half_up (q : Q) : Z := Qfloor (q + (1 # 2)).

End F32.

(** ** The gate node, [Apertus_Gate.ino] *)

Module Gate.
Import CStr.

Definition RF69_FREQ : Z := 915.

Definition PIN_RFM_CS : Z := 10.
Definition PIN_RFM_INT : Z := 2.
Definition PIN_RFM_RST : Z := 9.

Definition PIN_ACT_OPEN : Z := 3.
Definition PIN_ACT_CLOSE : Z := 4.
Definition PIN_ACT_STOP : Z := 5.
Definition PIN_ACT_LATCH : Z := 11.
Definition PIN_ACT_UNLATCH : Z := 12.
Definition PIN_ACT_TIMER : Z := 13.

(** The analog pins of the Nano, by their digital numbers. *)
Definition A0 : Z := 14.
Definition A1 : Z := 15.
Definition A2 : Z := 16.

Definition PIN_LIMIT_OPEN : Z := 6.
Definition PIN_LIMIT_CLOSED : Z := 7.
Definition PIN_PHOTOEYE : Z := 8.
Definition PIN_FREE_EXIT : Z := A2.

Definition PIN_BATT_ADC : Z := A0.
Definition PIN_SOLAR_ADC : Z := A1.

Definition RF_GATEWAY_ID : Z := 10.
Definition RF_NODE_ID : Z := 20.
Definition RF_NETWORK_ID : Z := 100.

Definition RF_AES_KEY : string := "0123456789abcdef".

Definition TELEMETRY_INTERVAL_MS : Z := 60 * 1000.

Definition BATTERY_DIVIDER_FACTOR : F32.float := F32.lit 403 100.
Definition SOLAR_DIVIDER_FACTOR : F32.float := F32.lit 403 100.

Definition BATTERY_VOLTS_MIN : F32.float := F32.lit 115 10.
Definition BATTERY_VOLTS_MAX : F32.float := F32.lit 136 10.

Definition actuator_pins : list Z :=
  [PIN_ACT_OPEN; PIN_ACT_CLOSE; PIN_ACT_STOP;
   PIN_ACT_LATCH; PIN_ACT_UNLATCH; PIN_ACT_TIMER].

(** What the node reads from its surroundings at one instant. *)
Record inputs : Type := mkInputs {
  digitalRead : Z -> level;
  analogRead : Z -> Z;
  readRSSI : Z;
  readTemperature : Z
}.

(** The globals of the sketch, the clock behind [millis] and the trace. *)
Record state : Type := mkState {
  trace : list event;
  lastTelemetryMs : Z;
  clock : Z
}.

Definition emit (e : event) : M unit :=
  modify (fun st => mkState (trace st ++ [e]) (lastTelemetryMs st) (clock st)).

Definition to_uint32 (z : Z) : Z := z mod 4294967296.

Definition millis : M Z := gets (fun st => to_uint32 (clock st)).

(** [delay] is the only operation that lets time pass. *)
Definition delay (ms : Z) : M unit :=
  emit (Delay ms) ;;
  modify (fun st => mkState (trace st) (lastTelemetryMs st) (clock st + ms)).

Definition digitalWrite (pin : Z) (l : level) : M unit :=
  emit (DigitalWrite pin l).

Definition pinMode (pin : Z) (m : pin_mode) : M unit := emit (PinMode pin m).

Definition Serial_print (s : string) : M unit := emit (SerialWrite s).

Definition Serial_println (s : string) : M unit :=
  emit (SerialWrite s) ;; emit (SerialWrite CRLF).

Definition sendWithRetry (dest : Z) (buf : string) (len : Z) : M unit :=
  emit (RadioSend dest buf len).

Section Sketch.
(** The surroundings as a function of the clock. *)
Variable env : Z -> inputs.

(** [snprintf]'s rendering of a [%.2f] argument. *)
Variable fmt_f2 : F32.float -> string.

Definition now_inputs : M inputs := gets (fun st => env (clock st)).

Definition readADCVoltage (pin : Z) (dividerFactor : F32.float) : M F32.float :=
  i <- now_inputs ;;
  let raw := analogRead i pin in
  let vref := F32.of_int 5 in
  let vout := F32.mul (F32.div (F32.of_int raw) (F32.of_int 1023)) vref in
  ret (F32.mul vout dividerFactor).

Definition readBatteryVoltage : M F32.float :=
  readADCVoltage PIN_BATT_ADC BATTERY_DIVIDER_FACTOR.

Definition readSolarVoltage : M F32.float :=
  readADCVoltage PIN_SOLAR_ADC SOLAR_DIVIDER_FACTOR.

Definition readRadioRSSI : M Z := i <- now_inputs ;; ret (readRSSI i).

Definition readRadioTempC : M Z := i <- now_inputs ;; ret (readTemperature i).

Definition getUptimeSeconds : M Z := t <- millis ;; ret (to_uint32 (t / 1000)).

Definition readActiveLow (pin : Z) : M bool :=
  i <- now_inputs ;; ret (level_eqb (digitalRead i pin) LOW).

Definition pulsePin (pin : Z) (ms : Z) : M unit :=
  digitalWrite pin HIGH ;;
  delay ms ;;
  digitalWrite pin LOW.

Definition applyActuatorCommand (cmd : string) : M unit :=
  if strcmp cmd "OPEN" =? 0 then pulsePin PIN_ACT_OPEN 200
  else if strcmp cmd "CLOSE" =? 0 then pulsePin PIN_ACT_CLOSE 200
  else if strcmp cmd "STOP" =? 0 then pulsePin PIN_ACT_STOP 200
  else if strcmp cmd "LATCH" =? 0 then pulsePin PIN_ACT_LATCH 200
  else if strcmp cmd "UNLATCH" =? 0 then pulsePin PIN_ACT_UNLATCH 200
  else if strcmp cmd "TIMER_CLOSE" =? 0 then pulsePin PIN_ACT_TIMER 200
  else ret tt.

Definition batteryPctFromVoltage (v : F32.float) : option Z :=
  if F32.leb v BATTERY_VOLTS_MIN then Some 0
  else if F32.leb BATTERY_VOLTS_MAX v then Some 100
  else
    let pct := F32.div (F32.sub v BATTERY_VOLTS_MIN)
                       (F32.sub BATTERY_VOLTS_MAX BATTERY_VOLTS_MIN) in
    F32.to_int (F32.add (F32.mul pct (F32.of_int 100)) (F32.lit 5 10)).

(** The values [sendTelemetryToGateway] gathers before formatting them. *)
Record telemetry : Type := mkTelemetry {
  t_src : Z;
  t_gate_state : string;
  t_limit_open : bool;
  t_limit_closed : bool;
  t_photoeye_blocked : bool;
  t_free_exit : bool;
  t_battery_voltage : F32.float;
  t_battery_pct : option Z;
  t_solar_voltage : F32.float;
  t_charging : bool;
  t_rssi : Z;
  t_radio_temp_c : Z;
  t_uptime_s : Z
}.

Definition gate_state_of (limitOpen limitClosed : bool) : string :=
  if limitOpen && negb limitClosed then "open"
  else if limitClosed && negb limitOpen then "closed"
  else if negb limitOpen && negb limitClosed then "moving"
  else "unknown".

Definition snapshot : M telemetry :=
  vbatt <- readBatteryVoltage ;;
  vsolar <- readSolarVoltage ;;
  let charging := F32.ltb (F32.add vbatt (F32.lit 2 10)) vsolar in
  rssi <- readRadioRSSI ;;
  radio_temp <- readRadioTempC ;;
  uptime_s <- getUptimeSeconds ;;
  limitOpen <- readActiveLow PIN_LIMIT_OPEN ;;
  limitClosed <- readActiveLow PIN_LIMIT_CLOSED ;;
  photoeyeBlocked <- readActiveLow PIN_PHOTOEYE ;;
  freeExit <- readActiveLow PIN_FREE_EXIT ;;
  let gate_state := gate_state_of limitOpen limitClosed in
  ret (mkTelemetry RF_NODE_ID gate_state limitOpen limitClosed
         photoeyeBlocked freeExit vbatt (batteryPctFromVoltage vbatt)
         vsolar charging rssi radio_temp uptime_s).

Definition bit (b : bool) : string := if b then "1" else "0".

(** [%d] of [batteryPctFromVoltage(vbatt)]; the cast inside is undefined
    for a NaN voltage, which leaves nothing to print. *)
Definition pct_text (p : option Z) : string :=
  match p with Some z => dec z | None => EmptyString end.

(** The text [snprintf] produces from its format and arguments. *)
Definition format_telemetry (t : telemetry) : string :=
  ("{" ++ quoted "src" ++ ":" ++ dec (t_src t)
   ++ "," ++ quoted "gate_state" ++ ":" ++ quoted (t_gate_state t)
   ++ "," ++ quoted "limit_open" ++ ":" ++ bit (t_limit_open t)
   ++ "," ++ quoted "limit_closed" ++ ":" ++ bit (t_limit_closed t)
   ++ "," ++ quoted "photoeye_blocked" ++ ":" ++ bit (t_photoeye_blocked t)
   ++ "," ++ quoted "free_exit" ++ ":" ++ bit (t_free_exit t)
   ++ "," ++ quoted "battery_voltage" ++ ":" ++ fmt_f2 (t_battery_voltage t)
   ++ "," ++ quoted "battery_pct" ++ ":" ++ pct_text (t_battery_pct t)
   ++ "," ++ quoted "solar_voltage" ++ ":" ++ fmt_f2 (t_solar_voltage t)
   ++ "," ++ quoted "charging" ++ ":" ++ bit (t_charging t)
   ++ "," ++ quoted "rssi" ++ ":" ++ dec (t_rssi t)
   ++ "," ++ quoted "radio_temp_c" ++ ":" ++ dec (t_radio_temp_c t)
   ++ "," ++ quoted "uptime_s" ++ ":" ++ dec (t_uptime_s t) ++ "}")%string.

(** [snprintf] keeps at most 511 characters in [payload] and returns the
    length of the whole text; both go to [sendWithRetry]. *)
Definition sendTelemetryToGateway : M unit :=
  t <- snapshot ;;
  let text := format_telemetry t in
  let payload := take 511 text in
  let n := strlen text in
  sendWithRetry RF_GATEWAY_ID payload n.

(** [setup]; [radio_ok] is what [rf69.initialize] returns. *)
Definition setup (radio_ok : bool) : M unit :=
  pinMode PIN_ACT_OPEN OUTPUT ;; digitalWrite PIN_ACT_OPEN LOW ;;
  pinMode PIN_ACT_CLOSE OUTPUT ;; digitalWrite PIN_ACT_CLOSE LOW ;;
  pinMode PIN_ACT_STOP OUTPUT ;; digitalWrite PIN_ACT_STOP LOW ;;
  pinMode PIN_ACT_LATCH OUTPUT ;; digitalWrite PIN_ACT_LATCH LOW ;;
  pinMode PIN_ACT_UNLATCH OUTPUT ;; digitalWrite PIN_ACT_UNLATCH LOW ;;
  pinMode PIN_ACT_TIMER OUTPUT ;; digitalWrite PIN_ACT_TIMER LOW ;;
  pinMode PIN_LIMIT_OPEN INPUT_PULLUP ;;
  pinMode PIN_LIMIT_CLOSED INPUT_PULLUP ;;
  pinMode PIN_PHOTOEYE INPUT_PULLUP ;;
  pinMode PIN_FREE_EXIT INPUT_PULLUP ;;
  emit AnalogReference ;;
  emit (SerialBegin 115200) ;;
  delay 200 ;;
  emit SpiBegin ;;
  emit (RadioInitialize RF69_FREQ RF_NODE_ID RF_NETWORK_ID) ;;
  (if negb radio_ok then Serial_println "RFM69 init failed"
   else
     emit RadioSetHighPower ;;
     emit (RadioEncrypt RF_AES_KEY) ;;
     emit (RadioEnableAutoPower true) ;;
     Serial_println "RFM69 initialized (Apertus Gate)") ;;
  t <- millis ;;
  modify (fun st => mkState (trace st) t (clock st)) ;;
  sendTelemetryToGateway.

(** The text copied out of the frame: at most 127 bytes of the payload,
    NUL-terminated, read as a C string. *)
Definition command_text (f : frame) : string :=
  let copyLen := Z.min (DATALEN f) (128 - 1) in
  c_str (firstn (Z.to_nat copyLen) (DATA f)).

(** The body of [if (rf69.receiveDone())]. *)
Definition on_receive (f : frame) : M unit :=
  let cmd := command_text f in
  Serial_print "Radio recv from " ;;
  Serial_print (dec (SENDERID f)) ;;
  Serial_print ": " ;;
  Serial_println cmd ;;
  applyActuatorCommand cmd ;;
  let ack := "ACK" in
  sendWithRetry RF_GATEWAY_ID ack (strlen ack) ;;
  delay 50 ;;
  sendTelemetryToGateway.

(** One pass of [loop]; [rx] is the frame [receiveDone] reports, if any. *)
Definition loop (rx : option frame) : M unit :=
  match rx with
  | Some f => on_receive f
  | None => ret tt
  end ;;
  t <- millis ;;
  last <- gets lastTelemetryMs ;;
  when (TELEMETRY_INTERVAL_MS <=? to_uint32 (t - last))
    (sendTelemetryToGateway ;;
     t' <- millis ;;
     modify (fun st => mkState (trace st) t' (clock st))) ;;
  delay 100.

Definition boot : state := mkState [] 0 0.

(** The sketch run from power-up: [setup], then one pass of [loop] per
    element of [rxs]. *)
Definition run (radio_ok : bool) (rxs : list (option frame)) : state :=
  exec (setup radio_ok ;; for_each loop rxs) boot.
End Sketch.
End Gate.

(** ** Vocabulary for stating the battery mapping *)

Module GateSpec.

(** The linear interpolation between the two thresholds, on rationals. *)
Definition interpolation (v : Q) : Q :=
  (v - (115 # 10)) / ((136 # 10) - (115 # 10)) * (100 # 1).

(** The mapping on rationals: clamped below and above, and the
    interpolation rounded to the nearest integer in between. *)
Definition exact_pct (v : Q) : Z :=
  if Qle_bool v (115 # 10) then 0
  else if Qle_bool (136 # 10) v then 100
  else F32.round_half_up (interpolation v).



(** The voltage [readADCVoltage] computes from the raw reading [raw] of the
    battery pin. *)
Definition battery_voltage_of (raw : Z) : F32.float :=
  F32.mul (F32.mul (F32.div (F32.of_int raw) (F32.of_int 1023)) (F32.of_int 5))
          Gate.BATTERY_DIVIDER_FACTOR.

End GateSpec.

(** ** The gateway, [Apertus_Gateway.ino] *)

Module Gateway.
Import CStr.

Definition RF69_FREQ : Z := 915.

Definition PIN_RFM_CS : Z := 10.
Definition PIN_RFM_INT : Z := 2.
Definition PIN_RFM_RST : Z := 9.

Definition RF_GATEWAY_ID : Z := 10.
Definition RF_NETWORK_ID : Z := 100.

Definition RF_AES_KEY : string := "0123456789abcdef".

Definition SERIAL_BUF_LEN : nat := 512.

(** The globals [serialBuf] and [serialPos], and the trace. *)
Record state : Type := mkState {
  trace : list event;
  serialBuf : list ascii;
  serialPos : nat
}.

Definition emit (e : event) : M unit :=
  modify (fun st => mkState (trace st ++ [e]) (serialBuf st) (serialPos st)).

Definition delay (ms : Z) : M unit := emit (Delay ms).

Definition Serial_print (s : string) : M unit := emit (SerialWrite s).

Definition Serial_print_char (c : ascii) : M unit :=
  emit (SerialWrite (String c EmptyString)).

Definition Serial_println (s : string) : M unit :=
  emit (SerialWrite s) ;; emit (SerialWrite CRLF).

(** [a[i] = x] on an array held as a list; the sketch never writes outside
    the array, and a write outside changes nothing here. *)
Fixpoint store (a : list ascii) (i : nat) (x : ascii) : list ascii :=
  match a, i with
  | [], _ => []
  | _ :: r, O => x :: r
  | y :: r, S i' => y :: store r i' x
  end.

Definition is_radio_send (e : event) : bool :=
  match e with RadioSend _ _ _ => true | _ => false end.

Definition radio_sends (tr : list event) : list event :=
  filter is_radio_send tr.

(** Everything written to the serial port, in order. *)
Fixpoint serial_out (tr : list event) : string :=
  match tr with
  | [] => EmptyString
  | SerialWrite s :: r => (s ++ serial_out r)%string
  | _ :: r => serial_out r
  end.

(** The JSON literals of the sketch. *)
Definition READY : string :=
  ("{" ++ quoted "gateway" ++ ":" ++ quoted "apertus_ready" ++ "}")%string.

Definition ERR_UNKNOWN_OPEN : string :=
  ("{" ++ quoted "err" ++ ":" ++ quoted "unknown_serial_cmd" ++ ","
   ++ quoted "line" ++ ":" ++ String QUOTE EmptyString)%string.

Definition CLOSE_STR : string := String QUOTE "}".

Definition ERR_BAD_FORMAT : string :=
  ("{" ++ quoted "err" ++ ":" ++ quoted "bad_format" ++ "}")%string.

Definition ERR_EMPTY_PAYLOAD : string :=
  ("{" ++ quoted "err" ++ ":" ++ quoted "empty_payload" ++ "}")%string.

Definition SENT_TO_OPEN : string := ("{" ++ quoted "sent_to" ++ ":")%string.

Definition PAYLOAD_OPEN : string :=
  ("," ++ quoted "payload" ++ ":" ++ String QUOTE EmptyString)%string.

Definition SENT_ERROR_OPEN : string :=
  ("{" ++ quoted "sent_error_to" ++ ":")%string.

Definition SRC_OPEN : string := ("{" ++ quoted "src" ++ ":")%string.

Definition RSSI_OPEN : string := ("," ++ quoted "rssi" ++ ":")%string.

(** The [while] loop that drops trailing line ends from the length. *)
Fixpoint trim_len (payload : string) (len : nat) : nat :=
  match len with
  | O => O
  | S k =>
      match String.get k payload with
      | Some c => if Ascii.eqb c LF || Ascii.eqb c CR
                  then trim_len payload k else len
      | None => len
      end
  end.

Section Sketch.
(** The outcome of the [k]-th call of [rf69.sendWithRetry]. *)
Variable send_ok : nat -> bool.

(** The frame capacity the sketch takes from the radio driver's header,
    which is not part of the sketch. *)
Variable RH_RF69_MAX_MESSAGE_LEN : Z.

Definition sendWithRetry (dest : Z) (buf : string) (len : Z) : M bool :=
  k <- gets (fun st => List.length (radio_sends (trace st))) ;;
  emit (RadioSend dest buf len) ;;
  ret (send_ok k).

Definition setup (radio_ok : bool) : M unit :=
  emit (SerialBegin 115200) ;;
  delay 200 ;;
  emit SpiBegin ;;
  emit (RadioInitialize RF69_FREQ RF_GATEWAY_ID RF_NETWORK_ID) ;;
  (if negb radio_ok then Serial_println "RFM69 init failed"
   else
     emit RadioSetHighPower ;;
     emit (RadioEncrypt RF_AES_KEY) ;;
     emit (RadioEnableAutoPower true) ;;
     Serial_println "Apertus Gateway RFM69 initialized") ;;
  Serial_println READY.

Definition forwardSerialToRadio (line : string) : M unit :=
  if negb (strncmp line "TO:" 3 =? 0) then
    Serial_print ERR_UNKNOWN_OPEN ;;
    Serial_print line ;;
    Serial_println CLOSE_STR
  else
    let p := advance line 3 in
    let dest := atoi p in
    match strchr p ":"%char with
    | None => Serial_println ERR_BAD_FORMAT
    | Some colon =>
        let payload := advance colon 1 in
        let len := trim_len payload (String.length payload) in
        if Nat.eqb len 0 then Serial_println ERR_EMPTY_PAYLOAD
        else
          let len := if Nat.ltb (192 - 1) len then (192 - 1)%nat else len in
          let sendBuf := take len payload in
          ok <- sendWithRetry (to_uint8 dest) sendBuf (Z.of_nat len) ;;
          if ok then
            Serial_print SENT_TO_OPEN ;;
            Serial_print (dec dest) ;;
            Serial_print PAYLOAD_OPEN ;;
            Serial_print payload ;;
            Serial_println CLOSE_STR
          else
            Serial_print SENT_ERROR_OPEN ;;
            Serial_print (dec dest) ;;
            Serial_println "}"
    end.

(** The body of the [for] loop that prints the payload. *)
Definition print_escaped (c : ascii) : M unit :=
  when (Ascii.eqb c QUOTE || Ascii.eqb c BACKSLASH)
    (Serial_print_char BACKSLASH) ;;
  Serial_print_char c.

(** The body of [if (rf69.receiveDone())]. *)
Definition on_receive (f : frame) : M unit :=
  let src := SENDERID f in
  let rssi := RSSI f in
  let n := Z.min (DATALEN f) RH_RF69_MAX_MESSAGE_LEN in
  let payload := firstn (Z.to_nat n) (DATA f) in
  Serial_print SRC_OPEN ;;
  Serial_print (dec src) ;;
  Serial_print RSSI_OPEN ;;
  Serial_print (dec rssi) ;;
  Serial_print PAYLOAD_OPEN ;;
  for_each print_escaped payload ;;
  Serial_println CLOSE_STR.

(** What one byte does to the line buffer: the new buffer and position,
    and the line handed to [forwardSerialToRadio], if any. *)
Definition buffer_byte (c : ascii) (buf : list ascii) (pos : nat)
  : list ascii * nat * option string :=
  if Ascii.eqb c CR then (buf, pos, None)
  else if Ascii.eqb c LF then
    let buf' := store buf pos NUL in
    (buf', O, if Nat.ltb 0 pos then Some (c_str buf') else None)
  else if Nat.ltb pos (SERIAL_BUF_LEN - 1) then (store buf pos c, S pos, None)
  else (buf, O, None).

(** The body of [while (Serial.available())] for the byte just read. *)
Definition serial_byte (c : ascii) : M unit :=
  buf <- gets serialBuf ;;
  pos <- gets serialPos ;;
  let '(buf', pos', line) := buffer_byte c buf pos in
  modify (fun st => mkState (trace st) buf' pos') ;;
  match line with
  | Some l => forwardSerialToRadio l
  | None => ret tt
  end.

(** One pass of [loop]: [rx] is the frame [receiveDone] reports, if any,
    and [avail] the bytes the serial port delivers during the pass. *)
Definition loop (rx : option frame) (avail : list ascii) : M unit :=
  match rx with
  | Some f => on_receive f
  | None => ret tt
  end ;;
  for_each serial_byte avail ;;
  delay 10.

Definition boot : state := mkState [] (repeat NUL SERIAL_BUF_LEN) O.

Definition loops (passes : list (option frame * list ascii)) : M unit :=
  for_each (fun p => loop (fst p) (snd p)) passes.

(** The sketch run from power-up. *)
Definition run (radio_ok : bool) (passes : list (option frame * list ascii))
  : state :=
  exec (setup radio_ok ;; loops passes) boot.
End Sketch.
End Gateway.

(** ** Vocabulary for stating the gateway's behaviour *)

Module GatewaySpec.
Import CStr Gateway.

(** Every character of a string passes the test [p]. *)
Fixpoint all_chars (p : ascii -> bool) (s : string) : bool :=
  match s with
  | EmptyString => true
  | String c r => p c && all_chars p r
  end.

(** [s] begins with the text [p]. *)
Fixpoint starts_with (p s : string) : bool :=
  match p, s with
  | EmptyString, _ => true
  | String _ _, EmptyString => false
  | String x p', String y s' => Ascii.eqb y x && starts_with p' s'
  end.

Definition line_end (c : ascii) : bool := Ascii.eqb c LF || Ascii.eqb c CR.

Definition colon_free (s : string) : bool :=
  all_chars (fun c => negb (Ascii.eqb c ":"%char)) s.

Definition lf_free (s : string) : bool :=
  all_chars (fun c => negb (Ascii.eqb c LF)) s.

(** The three ways a complete line fails the grammar [TO:<dest>:<payload>],
    each with the error object it is answered with. *)
Inductive malformed : string -> string -> Prop :=
| no_prefix (line : string) :
    starts_with "TO:" line = false ->
    malformed line (ERR_UNKNOWN_OPEN ++ line ++ CLOSE_STR)%string
| no_colon (rest : string) :
    colon_free rest = true ->
    malformed ("TO:" ++ rest)%string ERR_BAD_FORMAT
| no_payload (dest ends : string) :
    colon_free dest = true ->
    all_chars line_end ends = true ->
    malformed ("TO:" ++ dest ++ ":" ++ ends)%string ERR_EMPTY_PAYLOAD.

(** A payload byte as it appears inside the JSON string: quote and
    backslash get a backslash in front, every other byte stands as it is. *)
Definition escape_byte (c : ascii) : string :=
  if Ascii.eqb c QUOTE || Ascii.eqb c BACKSLASH
  then String BACKSLASH (String c EmptyString)
  else String c EmptyString.

Fixpoint escape (payload : list ascii) : string :=
  match payload with
  | [] => EmptyString
  | c :: r => (escape_byte c ++ escape r)%string
  end.


Fixpoint count_char (c : ascii) (s : string) : nat :=
  match s with
  | EmptyString => O
  | String x r => ((if Ascii.eqb x c then 1 else 0) + count_char c r)%nat
  end.

(** The lines of a serial stream: the texts ended by a line feed, without
    it; [cur] is the part of the current line already seen.  What follows
    the last line feed is not a line yet. *)
Fixpoint lines_from (cur : string) (s : string) : list string :=
  match s with
  | EmptyString => []
  | String c r =>
      if Ascii.eqb c LF then cur :: lines_from EmptyString r
      else lines_from (cur ++ String c EmptyString)%string r
  end.

Definition lines (s : string) : list string := lines_from EmptyString s.

(** The unfinished line left after [s]. *)
Fixpoint pending (cur : string) (s : string) : string :=
  match s with
  | EmptyString => cur
  | String c r =>
      if Ascii.eqb c LF then pending EmptyString r
      else pending (cur ++ String c EmptyString)%string r
  end.

(** The readiness marker as a line of the stream (the line feed removed). *)
Definition READY_LINE : string := (READY ++ String CR EmptyString)%string.

(** The lines handed to [forwardSerialToRadio] while the bytes [avail] go
    through the line buffer. *)
Fixpoint delivered (avail : list ascii) (buf : list ascii) (pos : nat)
  : list string :=
  match avail with
  | [] => []
  | c :: r =>
      let '(buf', pos', line) := buffer_byte c buf pos in
      match line with
      | Some l => l :: delivered r buf' pos'
      | None => delivered r buf' pos'
      end
  end.

(** A byte that is neither a carriage return nor a line feed. *)
Definition plain (c : ascii) : bool := negb (Ascii.eqb c CR) && negb (Ascii.eqb c LF).

(** The reading of the buffering rule under which nothing of a line that
    overflows the buffer reaches [forwardSerialToRadio]. *)
Definition oversized_line_dropped : Prop :=
  forall line : list ascii,
    (SERIAL_BUF_LEN <= List.length line)%nat ->
    forallb plain line = true ->
    delivered (line ++ [LF]) (repeat NUL SERIAL_BUF_LEN) O = [].

End GatewaySpec.

(** * Properties *)

Lemma exec_seq {S A} (c : @M S A) (k : @M S unit) (st : S) :
  exec (c ;; k) st = exec k (exec c st).
Proof. unfold exec, bind. now destruct (c st). Qed.

(** ** Facts about the C string functions *)

Module CStrFacts.
Import CStr.

Lemma strcmp_refl (a : string) : strcmp a a = 0.
Proof.
  induction a as [|x a IH]; simpl; [reflexivity|].
  now rewrite Ascii.eqb_refl.
Qed.

Lemma code_inj (x y : ascii) : code x = code y -> x = y.
Proof.
  unfold code. intros H. apply N2Z.inj in H.
  rewrite <- (ascii_N_embedding x), <- (ascii_N_embedding y).
  now rewrite H.
Qed.

Lemma code_pos (x : ascii) : x <> NUL -> 0 < code x.
Proof.
  intros H. unfold code.
  destruct (N_of_ascii x) eqn:E; [|lia].
  exfalso. apply H. rewrite <- (ascii_N_embedding x), E. reflexivity.
Qed.

(** A string free of NUL bytes, as every C string is. *)
Fixpoint nul_free (s : string) : Prop :=
  match s with
  | EmptyString => True
  | String c r => c <> NUL /\ nul_free r
  end.

Lemma strcmp_eq (a b : string) :
  nul_free a -> nul_free b -> (strcmp a b = 0 <-> a = b).
Proof.
  revert b. induction a as [|x a IH]; intros [|y b] Ha Hb; simpl in *.
  - tauto.
  - destruct Hb as [Hy _]. pose proof (code_pos y Hy).
    split; [lia | discriminate].
  - destruct Ha as [Hx _]. pose proof (code_pos x Hx).
    split; [lia | discriminate].
  - destruct Ha as [_ Ha], Hb as [_ Hb].
    destruct (Ascii.eqb_spec x y) as [->|Hxy].
    + rewrite (IH b Ha Hb). split; [now intros -> | now intros [= ->]].
    + split.
      * intros H. exfalso. apply Hxy, code_inj. lia.
      * intros [= Hx _]. contradiction.
Qed.

Lemma c_str_nul_free (buf : list ascii) : nul_free (c_str buf).
Proof.
  induction buf as [|c r IH]; simpl; [exact I|].
  destruct (Ascii.eqb_spec c NUL); simpl; auto.
Qed.

(** [strcmp ... == 0] against a literal decides equality with it. *)
Lemma strcmp_eqb (a lit : string) :
  nul_free a -> nul_free lit -> (strcmp a lit =? 0) = String.eqb a lit.
Proof.
  intros Ha Hl.
  destruct (String.eqb_spec a lit) as [->|Hne].
  - rewrite strcmp_refl. reflexivity.
  - apply Z.eqb_neq. intros H. apply Hne. now apply strcmp_eq.
Qed.

End CStrFacts.

(** ** The gate node *)

Module GateFacts.
Import CStr CStrFacts Gate.
Local Open Scope list_scope.

Section Facts.
Variable env : Z -> inputs.
Variable fmt_f2 : F32.float -> string.

(** The pin a command text names, by the vocabulary of the protocol. *)
Definition command_pin (text : string) : option Z :=
  if String.eqb text "OPEN" then Some PIN_ACT_OPEN
  else if String.eqb text "CLOSE" then Some PIN_ACT_CLOSE
  else if String.eqb text "STOP" then Some PIN_ACT_STOP
  else if String.eqb text "LATCH" then Some PIN_ACT_LATCH
  else if String.eqb text "UNLATCH" then Some PIN_ACT_UNLATCH
  else if String.eqb text "TIMER_CLOSE" then Some PIN_ACT_TIMER
  else None.

Definition pulse (pin ms : Z) : list event :=
  [DigitalWrite pin HIGH; Delay ms; DigitalWrite pin LOW].

Definition pulse_of (text : string) : list event :=
  match command_pin text with
  | Some pin => pulse pin 200
  | None => []
  end.

Definition pulse_ms (text : string) : Z :=
  match command_pin text with
  | Some _ => 200
  | None => 0
  end.

Lemma pulsePin_exec (pin ms : Z) (st : state) :
  exec (pulsePin pin ms) st =
  mkState (trace st ++ pulse pin ms) (lastTelemetryMs st) (clock st + ms).
Proof.
  unfold exec, pulsePin, digitalWrite, delay, emit, modify, bind. cbn.
  now rewrite <- !app_assoc.
Qed.

Lemma applyActuatorCommand_exec (cmd : string) (st : state) :
  nul_free cmd ->
  exec (applyActuatorCommand cmd) st =
  mkState (trace st ++ pulse_of cmd) (lastTelemetryMs st)
          (clock st + pulse_ms cmd).
Proof.
  intros Hc. unfold applyActuatorCommand, pulse_of, pulse_ms, command_pin.
  rewrite !(strcmp_eqb cmd) by (assumption || (cbn; repeat split; discriminate)).
  repeat match goal with
         | |- context [String.eqb cmd ?l] => destruct (String.eqb cmd l)
         end;
    rewrite ?pulsePin_exec; try reflexivity.
  unfold exec, ret. cbn. destruct st. cbn.
  now rewrite app_nil_r, Z.add_0_r.
Qed.

Lemma snapshot_pure (st : state) : snd (snapshot env st) = st.
Proof. reflexivity. Qed.

(** [snapshot] looks at the state only through the clock. *)
Lemma snapshot_clock (st st' : state) :
  clock st = clock st' -> fst (snapshot env st) = fst (snapshot env st').
Proof.
  intros H. unfold snapshot, readBatteryVoltage, readSolarVoltage,
    readADCVoltage, readRadioRSSI, readRadioTempC, getUptimeSeconds,
    readActiveLow, now_inputs, millis, gets, bind, ret. cbn.
  now rewrite H.
Qed.

(** The frame [sendTelemetryToGateway] hands to the radio. *)
Definition telemetry_event (st : state) : event :=
  let text := format_telemetry fmt_f2 (fst (snapshot env st)) in
  RadioSend RF_GATEWAY_ID (take 511 text) (strlen text).

Lemma telemetry_event_clock (st st' : state) :
  clock st = clock st' -> telemetry_event st = telemetry_event st'.
Proof.
  intros H. unfold telemetry_event. now rewrite (snapshot_clock st st' H).
Qed.

Lemma sendTelemetryToGateway_exec (st : state) :
  exec (sendTelemetryToGateway env fmt_f2) st =
  mkState (trace st ++ [telemetry_event st]) (lastTelemetryMs st) (clock st).
Proof. reflexivity. Qed.

(** C1: the [gate_state] of the snapshot that [sendTelemetryToGateway]
    formats and sends is the table value of the two limit-switch readings
    taken (active low) at that moment, and of nothing else: open when only
    the open switch is set, closed when only the closed switch is set, moving
    when neither is, unknown when both are. *)
Theorem gate_state_table (st : state) :
  let i := env (clock st) in
  let limit_open := level_eqb (digitalRead i PIN_LIMIT_OPEN) LOW in
  let limit_closed := level_eqb (digitalRead i PIN_LIMIT_CLOSED) LOW in
  let t := fst (snapshot env st) in
  trace (exec (sendTelemetryToGateway env fmt_f2) st) =
    trace st ++ [RadioSend RF_GATEWAY_ID
                   (take 511 (format_telemetry fmt_f2 t))
                   (strlen (format_telemetry fmt_f2 t))] /\
  t_limit_open t = limit_open /\
  t_limit_closed t = limit_closed /\
  t_gate_state t =
    match limit_open, limit_closed with
    | true, false => "open"
    | false, true => "closed"
    | false, false => "moving"
    | true, true => "unknown"
    end.
Proof.
  cbv zeta. rewrite sendTelemetryToGateway_exec. cbn [trace].
  repeat split.
  unfold snapshot, readBatteryVoltage, readSolarVoltage,
    readADCVoltage, readRadioRSSI, readRadioTempC, getUptimeSeconds,
    readActiveLow, now_inputs, millis, gets, bind, ret. cbn.
  unfold gate_state_of.
  now destruct (level_eqb _ LOW), (level_eqb _ LOW).
Qed.

(** C3: the text decoded from a received payload pulses the actuator output
    its name stands for, for 200 ms, when it is exactly one of OPEN, CLOSE,
    STOP, LATCH, UNLATCH, TIMER_CLOSE; any other text leaves every output
    untouched. *)
Theorem applyActuatorCommand_vocabulary (f : frame) (st : state) :
  let text := command_text f in
  trace (exec (applyActuatorCommand text) st) =
    trace st ++
    (if String.eqb text "OPEN" then pulse PIN_ACT_OPEN 200
     else if String.eqb text "CLOSE" then pulse PIN_ACT_CLOSE 200
     else if String.eqb text "STOP" then pulse PIN_ACT_STOP 200
     else if String.eqb text "LATCH" then pulse PIN_ACT_LATCH 200
     else if String.eqb text "UNLATCH" then pulse PIN_ACT_UNLATCH 200
     else if String.eqb text "TIMER_CLOSE" then pulse PIN_ACT_TIMER 200
     else []).
Proof.
  cbv zeta. rewrite applyActuatorCommand_exec by apply c_str_nul_free.
  cbn [trace]. unfold pulse_of, command_pin.
  repeat match goal with
         | |- context [String.eqb ?c ?l] => destruct (String.eqb c l)
         end; reflexivity.
Qed.

Definition prints (f : frame) : list event :=
  [SerialWrite "Radio recv from "; SerialWrite (dec (SENDERID f));
   SerialWrite ": "; SerialWrite (command_text f); SerialWrite CRLF].

Lemma on_receive_exec (f : frame) (st : state) :
  let d := pulse_ms (command_text f) + 50 in
  let st' := mkState (trace st) (lastTelemetryMs st) (clock st + d) in
  exec (on_receive env fmt_f2 f) st =
  mkState (trace st ++ prints f ++ pulse_of (command_text f)
           ++ [RadioSend RF_GATEWAY_ID "ACK" 3; Delay 50; telemetry_event st'])
          (lastTelemetryMs st) (clock st + d).
Proof.
  cbv zeta. unfold on_receive.
  set (cmd := command_text f). cbv zeta.
  rewrite !exec_seq.
  set (pre := exec (Serial_println cmd) _).
  assert (Hpre : pre = mkState (trace st ++ prints f) (lastTelemetryMs st) (clock st)).
  { subst pre. unfold exec, Serial_print, Serial_println, emit, modify, bind, prints.
    cbn. now rewrite <- !app_assoc. }
  rewrite Hpre, applyActuatorCommand_exec by apply c_str_nul_free.
  set (st2 := exec (delay 50) _).
  assert (Hst2 : st2 = mkState (trace st ++ prints f ++ pulse_of cmd
                                ++ [RadioSend RF_GATEWAY_ID "ACK" 3; Delay 50])
                         (lastTelemetryMs st) (clock st + (pulse_ms cmd + 50))).
  { subst st2. unfold exec, sendWithRetry, delay, emit, modify, bind. cbn.
    rewrite <- !app_assoc. cbn. f_equal. lia. }
  rewrite sendTelemetryToGateway_exec, Hst2. cbn [trace lastTelemetryMs clock].
  rewrite <- !app_assoc. cbn [app].
  rewrite (telemetry_event_clock _ (mkState (trace st) (lastTelemetryMs st)
                                      (clock st + (pulse_ms cmd + 50)))) by reflexivity.
  reflexivity.
Qed.

(** C9: on every received frame, whatever its text, the node sends the
    payload ACK to the gateway id, waits, and then sends to the gateway id a
    telemetry frame formatted from a snapshot taken at that later moment. *)
Theorem ack_then_telemetry (f : frame) (st : state) :
  exists (before after : list event) (st' : state),
    trace (exec (loop env fmt_f2 (Some f)) st) =
      trace st ++ before
      ++ [RadioSend RF_GATEWAY_ID "ACK" 3; Delay 50; telemetry_event st']
      ++ after /\
    clock st' = clock st + pulse_ms (command_text f) + 50 /\
    Forall (fun e => forall d b n, e <> RadioSend d b n) before.
Proof.
  set (d := pulse_ms (command_text f) + 50).
  set (st' := mkState (trace st) (lastTelemetryMs st) (clock st + d)).
  set (st1 := exec (on_receive env fmt_f2 f) st).
  exists (prints f ++ pulse_of (command_text f)).
  assert (H1 : trace st1 = trace st ++ (prints f ++ pulse_of (command_text f))
            ++ [RadioSend RF_GATEWAY_ID "ACK" 3; Delay 50; telemetry_event st']).
  { subst st1. rewrite on_receive_exec. cbn [trace]. now rewrite <- !app_assoc. }
  assert (H2 : exists after, trace (exec (loop env fmt_f2 (Some f)) st) = trace st1 ++ after).
  { unfold loop. rewrite exec_seq. fold st1.
    unfold exec, bind, millis, gets, when. cbn.
    match goal with |- context [if ?b then _ else _] => destruct b end; cbn.
    - eexists. rewrite <- !app_assoc. reflexivity.
    - eexists. reflexivity. }
  destruct H2 as [after H2].
  exists after, st'. split; [|split].
  - rewrite H2, H1. now rewrite <- !app_assoc.
  - subst st' d. cbn. lia.
  - apply Forall_app. split.
    + repeat constructor; discriminate.
    + unfold pulse_of, pulse. destruct (command_pin _); repeat constructor; discriminate.
Qed.

(** *** Actuator outputs *)

(** Where the outputs stand between two events: all deasserted, or inside
    the pulse of one pin, before or after its wait. *)
Inductive phase : Type := Idle | Asserted (pin : Z) | Holding (pin : Z).

Definition is_actuator (pin : Z) : bool := existsb (Z.eqb pin) actuator_pins.

Arguments is_actuator : simpl never.

(** The only way out of [Idle] is asserting an actuator pin, and the only
    way back is a 200 ms wait followed by deasserting that pin. *)
Definition phase_step (ph : phase) (e : event) : option phase :=
  match ph, e with
  | Idle, DigitalWrite p HIGH => if is_actuator p then Some (Asserted p) else None
  | Idle, _ => Some Idle
  | Asserted p, Delay ms => if ms =? 200 then Some (Holding p) else None
  | Holding p, DigitalWrite q LOW => if q =? p then Some Idle else None
  | _, _ => None
  end.

Fixpoint phase_run (ph : phase) (tr : list event) : option phase :=
  match tr with
  | [] => Some ph
  | e :: r =>
      match phase_step ph e with
      | Some ph' => phase_run ph' r
      | None => None
      end
  end.

(** The level a pin is left at by the writes of a trace. *)
Fixpoint pin_level_from (cur : option level) (tr : list event) (pin : Z)
  : option level :=
  match tr with
  | [] => cur
  | DigitalWrite q l :: r =>
      pin_level_from (if q =? pin then Some l else cur) r pin
  | _ :: r => pin_level_from cur r pin
  end.

Definition pin_level (tr : list event) (pin : Z) : option level :=
  pin_level_from None tr pin.

Definition high_writes (tr : list event) : nat :=
  List.length (filter (fun e => match e with
                                | DigitalWrite _ HIGH => true
                                | _ => false
                                end) tr).

Lemma phase_run_app (ph : phase) (a b : list event) :
  phase_run ph (a ++ b) =
  match phase_run ph a with
  | Some ph' => phase_run ph' b
  | None => None
  end.
Proof.
  revert ph. induction a as [|e a IH]; intros ph; cbn; [reflexivity|].
  destruct (phase_step ph e); [apply IH | reflexivity].
Qed.

Lemma pin_level_from_app (cur : option level) (a b : list event) (pin : Z) :
  pin_level_from cur (a ++ b) pin =
  pin_level_from (pin_level_from cur a pin) b pin.
Proof.
  revert cur. induction a as [|e a IH]; intros cur; cbn; [reflexivity|].
  destruct e; auto.
Qed.

(** A pin that is low stays low over events that start and end outside a
    pulse. *)
Lemma idle_keeps_low (evs : list event) (pin : Z) :
  phase_run Idle evs = Some Idle ->
  pin_level_from (Some LOW) evs pin = Some LOW.
Proof.
  assert (G : forall ph cur,
             phase_run ph evs = Some Idle ->
             match ph with
             | Idle => cur = Some LOW
             | Asserted q | Holding q => q = pin \/ cur = Some LOW
             end ->
             pin_level_from cur evs pin = Some LOW).
  { induction evs as [|e evs IH]; intros ph cur Hrun Hinv.
    - cbn in *. injection Hrun as ->. exact Hinv.
    - destruct ph, e; cbn in Hrun |- *; try discriminate;
        repeat match type of Hrun with
               | context [match ?l with LOW => _ | HIGH => _ end] => destruct l
               | context [if ?b then _ else _] => destruct b eqn:?
               end;
        try discriminate;
        (eapply IH; [exact Hrun|]); cbn;
        repeat match goal with
               | H : (?a =? ?b) = true |- _ => apply Z.eqb_eq in H
               | |- context [?a =? ?b] => destruct (Z.eqb_spec a b)
               end; subst; intuition congruence. }
  intros H. now apply (G Idle).
Qed.

(** A computation that starts and ends outside a pulse, from any state. *)
Definition Calm {A} (c : @M state A) : Prop :=
  forall st, exists evs,
    trace (snd (c st)) = trace st ++ evs /\ phase_run Idle evs = Some Idle.

Lemma Calm_ret {A} (a : A) : Calm (ret a).
Proof. intros st. exists []. cbn. now rewrite app_nil_r. Qed.

Lemma Calm_bind {A B} (c : M A) (k : A -> M B) :
  Calm c -> (forall a, Calm (k a)) -> Calm (bind c k).
Proof.
  intros Hc Hk st. unfold bind.
  destruct (Hc st) as [e1 [H1 C1]]. destruct (c st) as [a st1]. cbn in H1.
  destruct (Hk a st1) as [e2 [H2 C2]].
  exists (e1 ++ e2). split.
  - now rewrite H2, H1, app_assoc.
  - now rewrite phase_run_app, C1.
Qed.

Lemma Calm_gets {A} (f : state -> A) : Calm (gets f).
Proof. intros st. exists []. cbn. now rewrite app_nil_r. Qed.

Lemma Calm_emit (e : event) : phase_step Idle e = Some Idle -> Calm (emit e).
Proof.
  intros H st. exists [e]. split; [reflexivity|].
  cbn [phase_run]. now rewrite H.
Qed.

Lemma Calm_set_last (f : state -> Z) :
  Calm (modify (fun st => mkState (trace st) (f st) (clock st))).
Proof. intros st. exists []. cbn. now rewrite app_nil_r. Qed.

Lemma Calm_delay (ms : Z) : Calm (delay ms).
Proof.
  intros st. exists [Delay ms]. now cbn.
Qed.

Lemma Calm_pulsePin (pin : Z) :
  is_actuator pin = true -> Calm (pulsePin pin 200).
Proof.
  intros H st. exists (pulse pin 200). split.
  - change (snd (pulsePin pin 200 st)) with (exec (pulsePin pin 200) st).
    now rewrite pulsePin_exec.
  - unfold pulse. cbn [phase_run phase_step]. rewrite H. cbn.
    now rewrite Z.eqb_refl.
Qed.

Lemma Calm_applyActuatorCommand (cmd : string) : Calm (applyActuatorCommand cmd).
Proof.
  unfold applyActuatorCommand.
  repeat match goal with
         | |- Calm (if ?b then _ else _) => destruct b
         end;
    try (apply Calm_pulsePin; reflexivity).
  apply Calm_ret.
Qed.

Lemma Calm_sendTelemetryToGateway : Calm (sendTelemetryToGateway env fmt_f2).
Proof.
  intros st. exists [telemetry_event st]. split; reflexivity.
Qed.

Ltac calm_step :=
  lazymatch goal with
  | |- Calm (ret _) => apply Calm_ret
  | |- Calm (gets _) => apply Calm_gets
  | |- Calm (delay _) => apply Calm_delay
  | |- Calm (modify _) => apply Calm_set_last
  | |- Calm (applyActuatorCommand _) => apply Calm_applyActuatorCommand
  | |- Calm (sendTelemetryToGateway _ _) => apply Calm_sendTelemetryToGateway
  | |- Calm (emit _) => apply Calm_emit; reflexivity
  | |- Calm (bind _ _) => apply Calm_bind; [|intros ?]
  end.

Ltac calm := repeat calm_step.

Lemma Calm_on_receive (f : frame) : Calm (on_receive env fmt_f2 f).
Proof.
  unfold on_receive, Serial_print, Serial_println, sendWithRetry. cbv zeta. calm.
Qed.

Lemma Calm_loop (rx : option frame) : Calm (loop env fmt_f2 rx).
Proof.
  unfold loop, millis, when. calm.
  - destruct rx; [apply Calm_on_receive | apply Calm_ret].
  - match goal with |- Calm (if ?b then _ else _) => destruct b end; calm.
Qed.

Lemma Calm_for_each {A} (f : A -> M unit) (l : list A) :
  (forall a, Calm (f a)) -> Calm (for_each f l).
Proof.
  intros H. induction l as [|a l IH]; cbn; [apply Calm_ret|].
  apply Calm_bind; [apply H | intros _; exact IH].
Qed.

Lemma Calm_setup (radio_ok : bool) : Calm (setup env fmt_f2 radio_ok).
Proof.
  unfold setup, pinMode, digitalWrite, Serial_println, millis. calm.
  destruct (negb radio_ok); calm.
Qed.

Lemma setup_levels (radio_ok : bool) :
  Forall (fun pin => pin_level (trace (exec (setup env fmt_f2 radio_ok) boot)) pin
                     = Some LOW) actuator_pins.
Proof.
  destruct radio_ok; repeat constructor.
Qed.

Lemma run_calm (radio_ok : bool) (rxs : list (option frame)) :
  exists evs,
    trace (run env fmt_f2 radio_ok rxs) =
      trace (exec (setup env fmt_f2 radio_ok) boot) ++ evs /\
    phase_run Idle evs = Some Idle.
Proof.
  unfold run. rewrite exec_seq.
  apply (Calm_for_each (loop env fmt_f2) rxs Calm_loop).
Qed.

Lemma setup_calm (radio_ok : bool) :
  phase_run Idle (trace (exec (setup env fmt_f2 radio_ok) boot)) = Some Idle.
Proof.
  destruct (Calm_setup radio_ok boot) as [evs [H C]].
  unfold exec. rewrite H. exact C.
Qed.

(** C10: [setup] leaves the six actuator outputs low; over a whole run the
    only writes that raise an output are the first step of a pulse (raise an
    actuator pin, wait 200 ms, lower the same pin), so the outputs are all low
    after every pass; [pulsePin] ends by lowering the pin it raised, and
    [applyActuatorCommand] raises at most one pin per call. *)
Theorem actuators_low_outside_pulse (radio_ok : bool) (rxs : list (option frame)) :
  let tr := trace (run env fmt_f2 radio_ok rxs) in
  Forall (fun pin => pin_level (trace (exec (setup env fmt_f2 radio_ok) boot)) pin
                     = Some LOW) actuator_pins /\
  phase_run Idle tr = Some Idle /\
  Forall (fun pin => pin_level tr pin = Some LOW) actuator_pins /\
  (forall pin ms st,
      trace (exec (pulsePin pin ms) st) =
      trace st ++ [DigitalWrite pin HIGH; Delay ms; DigitalWrite pin LOW]) /\
  (forall cmd st, exists evs,
      trace (exec (applyActuatorCommand cmd) st) = trace st ++ evs /\
      (high_writes evs <= 1)%nat).
Proof.
  destruct (run_calm radio_ok rxs) as [evs [H C]].
  pose proof (setup_levels radio_ok) as L.
  pose proof (setup_calm radio_ok) as S.
  cbv zeta. rewrite H. clear H.
  revert L S. generalize (trace (exec (setup env fmt_f2 radio_ok) boot)).
  intros tr0 L S.
  split; [exact L|]. split; [|split; [|split]].
  - rewrite phase_run_app, S. exact C.
  - apply Forall_forall. intros pin Hin.
    pose proof (proj1 (Forall_forall _ _) L pin Hin) as Lp. cbv beta in Lp.
    unfold pin_level. rewrite pin_level_from_app.
    fold (pin_level tr0 pin). rewrite Lp.
    now apply idle_keeps_low.
  - intros pin ms st. now rewrite pulsePin_exec.
  - intros cmd st. unfold applyActuatorCommand.
    repeat match goal with
           | |- context [if ?b then _ else _] => destruct b
           end;
      try (eexists; rewrite pulsePin_exec; split; [reflexivity | cbn; lia]).
    exists []. cbn. rewrite app_nil_r. split; [reflexivity | lia].
Qed.

End Facts.
End GateFacts.


(** ** The gateway *)

Module GatewayFacts.
Import CStr CStrFacts Gateway GatewaySpec.
Local Open Scope list_scope.

Lemma append_nil_r (s : string) : (s ++ "")%string = s.
Proof. induction s; cbn; congruence. Qed.

Lemma append_assoc (a b c : string) :
  ((a ++ b) ++ c)%string = (a ++ (b ++ c))%string.
Proof. induction a; cbn; congruence. Qed.

Lemma length_append (a b : string) :
  String.length (a ++ b) = (String.length a + String.length b)%nat.
Proof. induction a; cbn; congruence. Qed.

Lemma strncmp_TO (line : string) :
  (strncmp line "TO:" 3 =? 0) = starts_with "TO:" line.
Proof.
  assert (E : forall x y : ascii, x <> y -> (code x - code y =? 0) = false).
  { intros x y H. apply Z.eqb_neq. intros K. apply H, code_inj. lia. }
  destruct line as [|a [|b [|c r]]]; cbn;
    repeat match goal with
           | |- context [Ascii.eqb ?x ?y] =>
               destruct (Ascii.eqb_spec x y) as [->|?]
           end;
    cbn; try reflexivity; try congruence;
    try match goal with
        | H : ?x <> ?y |- (code ?x - _ =? 0) = false => exact (E x y H)
        end.
  now destruct r.
Qed.

Lemma strchr_none (s : string) :
  colon_free s = true -> strchr s ":"%char = None.
Proof.
  induction s as [|x s IH]; cbn; [reflexivity|]. intros H.
  apply andb_true_iff in H. destruct H as [Hx Hs].
  destruct (Ascii.eqb x ":"%char); [discriminate | auto].
Qed.

Lemma strchr_colon (d rest : string) :
  colon_free d = true ->
  strchr (d ++ String ":"%char rest) ":"%char = Some (String ":"%char rest).
Proof.
  induction d as [|x d IH]; cbn; [reflexivity|]. intros H.
  apply andb_true_iff in H. destruct H as [Hx Hd].
  destruct (Ascii.eqb x ":"%char); [discriminate | auto].
Qed.

Lemma get_append_r (a b : string) (i : nat) :
  String.get (String.length a + i) (a ++ b) = String.get i b.
Proof. induction a; cbn; auto. Qed.

(** Trailing line ends do not count. *)
Lemma trim_len_ends (body ends : string) (k : nat) :
  all_chars line_end ends = true ->
  (k <= String.length ends)%nat ->
  trim_len (body ++ ends) (String.length body + k) =
  trim_len (body ++ ends) (String.length body).
Proof.
  intros He. induction k as [|k IH]; intros Hk.
  - now rewrite Nat.add_0_r.
  - rewrite Nat.add_succ_r. cbn [trim_len]. rewrite get_append_r.
    assert (G : exists c, String.get k ends = Some c /\ line_end c = true).
    { clear IH. revert k Hk. induction ends as [|x e IHe]; intros k Hk; cbn in *.
      - lia.
      - apply andb_true_iff in He. destruct He as [Hx He'].
        destruct k; [eauto|]. apply IHe; [assumption | lia]. }
    destruct G as [c [-> Hc]]. unfold line_end in Hc. rewrite Hc.
    apply IH. lia.
Qed.

(** A body that ends in a byte other than a line end is kept whole. *)
Lemma trim_len_body (body ends : string) (x : ascii) :
  line_end x = false ->
  trim_len ((body ++ String x "") ++ ends) (String.length (body ++ String x "")) =
  String.length (body ++ String x "").
Proof.
  intros Hx. rewrite length_append. cbn [String.length].
  rewrite Nat.add_1_r. cbn [trim_len].
  rewrite append_assoc.
  replace (String.length body) with (String.length body + 0)%nat at 1 by lia.
  rewrite get_append_r. cbn. unfold line_end in Hx. now rewrite Hx.
Qed.

Lemma digits_value_cut (d rest : string) (acc : Z) :
  digits_value (d ++ String ":"%char rest) acc = digits_value d acc.
Proof.
  revert acc. induction d as [|x d IH]; intros acc; cbn; [reflexivity|].
  destruct (isdigit x); auto.
Qed.

(** [atoi] reads the destination up to the colon at the latest. *)
Lemma atoi_cut (d rest : string) :
  atoi (d ++ String ":"%char rest) = atoi d.
Proof.
  unfold atoi. induction d as [|x d IH]; cbn; [reflexivity|].
  destruct (isspace x); [exact IH|].
  destruct (Ascii.eqb x "-"%char); [now rewrite digits_value_cut|].
  destruct (Ascii.eqb x "+"%char); [now rewrite digits_value_cut|].
  change (String x (d ++ String ":"%char rest))
    with ((String x d) ++ String ":"%char rest)%string.
  now rewrite digits_value_cut.
Qed.

Section Facts.
Variable send_ok : nat -> bool.
Variable RH_RF69_MAX_MESSAGE_LEN : Z.

Local Abbreviation forwardSerialToRadio := (forwardSerialToRadio send_ok).

Definition extend (st : state) (evs : list event) : state :=
  mkState (trace st ++ evs) (serialBuf st) (serialPos st).

Lemma radio_sends_app (a b : list event) :
  radio_sends (a ++ b) = radio_sends a ++ radio_sends b.
Proof. apply filter_app. Qed.

Lemma serial_out_app (a b : list event) :
  serial_out (a ++ b) = (serial_out a ++ serial_out b)%string.
Proof.
  induction a as [|e a IH]; cbn; [reflexivity|].
  destruct e; auto. now rewrite IH, append_assoc.
Qed.

Lemma forward_no_prefix (line : string) (st : state) :
  starts_with "TO:" line = false ->
  exec (forwardSerialToRadio line) st =
  extend st [SerialWrite ERR_UNKNOWN_OPEN; SerialWrite line;
             SerialWrite CLOSE_STR; SerialWrite CRLF].
Proof.
  intros H. unfold forwardSerialToRadio.
  rewrite strncmp_TO, H. cbn [negb].
  unfold exec, extend, Serial_print, Serial_println, emit, modify, bind. cbn.
  now rewrite <- !app_assoc.
Qed.

Lemma forward_no_colon (rest : string) (st : state) :
  colon_free rest = true ->
  exec (forwardSerialToRadio ("TO:" ++ rest)) st =
  extend st [SerialWrite ERR_BAD_FORMAT; SerialWrite CRLF].
Proof.
  intros H. unfold forwardSerialToRadio.
  rewrite strncmp_TO.
  change (starts_with "TO:" ("TO:" ++ rest)) with true. cbn [negb].
  change (advance ("TO:" ++ rest) 3%nat) with rest.
  rewrite (strchr_none rest H).
  unfold exec, extend, Serial_println, emit, modify, bind. cbn.
  now rewrite <- !app_assoc.
Qed.

Lemma forward_no_payload (dest ends : string) (st : state) :
  colon_free dest = true ->
  all_chars line_end ends = true ->
  exec (forwardSerialToRadio ("TO:" ++ dest ++ ":" ++ ends)) st =
  extend st [SerialWrite ERR_EMPTY_PAYLOAD; SerialWrite CRLF].
Proof.
  intros Hd He. unfold forwardSerialToRadio.
  rewrite strncmp_TO.
  change (starts_with "TO:" ("TO:" ++ dest ++ ":" ++ ends)) with true.
  cbn [negb].
  change (advance ("TO:" ++ dest ++ ":" ++ ends) 3%nat)
    with (dest ++ String ":"%char ends)%string.
  rewrite (strchr_colon dest ends Hd).
  change (advance (String ":"%char ends) 1%nat) with ends.
  pose proof (trim_len_ends "" ends (String.length ends) He (le_n _)) as T.
  cbn in T. rewrite T. cbn [Nat.eqb].
  unfold exec, extend, Serial_println, emit, modify, bind. cbn.
  now rewrite <- !app_assoc.
Qed.

(** C4: a complete line that lacks the [TO:] prefix, or the colon after the
    destination, or has nothing but line ends after that colon, is answered
    on the serial port with the matching error object, alone on its line, and
    causes no call of the radio send. *)
Theorem malformed_line_rejected (line err : string) (st : state) :
  malformed line err ->
  exists evs,
    trace (exec (forwardSerialToRadio line) st) = trace st ++ evs /\
    radio_sends evs = [] /\
    serial_out evs = (err ++ CRLF)%string /\
    radio_sends (trace (exec (forwardSerialToRadio line) st))
      = radio_sends (trace st).
Proof.
  intros H. destruct H as [line H | rest H | dest ends Hd He].
  - rewrite forward_no_prefix by assumption.
    eexists. split; [reflexivity|]. cbn [extend trace].
    rewrite radio_sends_app.
    cbn [radio_sends filter is_radio_send serial_out].
    rewrite app_nil_r, ?append_nil_r, ?append_assoc. auto.
  - rewrite forward_no_colon by assumption.
    eexists. split; [reflexivity|]. cbn [extend trace].
    rewrite radio_sends_app.
    cbn [radio_sends filter is_radio_send serial_out].
    rewrite app_nil_r, ?append_nil_r, ?append_assoc. auto.
  - rewrite forward_no_payload by assumption.
    eexists. split; [reflexivity|]. cbn [extend trace].
    rewrite radio_sends_app.
    cbn [radio_sends filter is_radio_send serial_out].
    rewrite app_nil_r, ?append_nil_r, ?append_assoc. auto.
Qed.

Lemma take_append (n : nat) (a b : string) :
  (n <= String.length a)%nat -> take n (a ++ b) = take n a.
Proof.
  revert a. induction n as [|n IH]; intros a H; [reflexivity|].
  destruct a as [|c a]; cbn in *; [lia|]. f_equal. apply IH. lia.
Qed.

Lemma take_all (n : nat) (a : string) :
  (String.length a <= n)%nat -> take n a = a.
Proof.
  revert a. induction n as [|n IH]; intros a H.
  - destruct a; [reflexivity | cbn in H; lia].
  - destruct a as [|c a]; cbn in *; [reflexivity|]. f_equal. apply IH. lia.
Qed.

(** The events of a line that passes the three checks: one radio send, then
    one outcome object. *)
Definition outcome (ok : bool) (dest : Z) (payload : string) : list event :=
  if ok then
    [SerialWrite SENT_TO_OPEN; SerialWrite (dec dest); SerialWrite PAYLOAD_OPEN;
     SerialWrite payload; SerialWrite CLOSE_STR; SerialWrite CRLF]
  else
    [SerialWrite SENT_ERROR_OPEN; SerialWrite (dec dest); SerialWrite "}";
     SerialWrite CRLF].

Lemma forward_valid (dest body ends : string) (x : ascii) (st : state) :
  colon_free dest = true ->
  line_end x = false ->
  all_chars line_end ends = true ->
  let kept := (body ++ String x "")%string in
  let payload := (kept ++ ends)%string in
  let ok := send_ok (List.length (radio_sends (trace st))) in
  exec (forwardSerialToRadio ("TO:" ++ dest ++ ":" ++ payload)) st =
  extend st (RadioSend (to_uint8 (atoi dest)) (take 191 kept)
               (Z.of_nat (Nat.min 191 (String.length kept)))
             :: outcome ok (atoi dest) payload).
Proof.
  intros Hd Hx He kept payload ok. unfold forwardSerialToRadio.
  rewrite strncmp_TO.
  change (starts_with "TO:" ("TO:" ++ dest ++ ":" ++ payload)) with true.
  cbn [negb].
  change (advance ("TO:" ++ dest ++ ":" ++ payload) 3%nat)
    with (dest ++ String ":"%char payload)%string.
  rewrite (strchr_colon dest payload Hd), atoi_cut.
  change (advance (String ":"%char payload) 1%nat) with payload.
  assert (T : trim_len payload (String.length payload) = String.length kept).
  { unfold payload. rewrite length_append.
    rewrite (trim_len_ends kept ends _ He (le_n _)).
    apply trim_len_body, Hx. }
  rewrite T.
  assert (K : String.length kept = S (String.length body)).
  { unfold kept. rewrite length_append. cbn. lia. }
  assert (N : Nat.eqb (String.length kept) 0 = false) by now rewrite K.
  rewrite N.
  change (192 - 1)%nat with 191%nat.
  assert (B : take (if Nat.ltb 191 (String.length kept) then 191%nat
                    else String.length kept) payload = take 191 kept).
  { unfold payload. destruct (Nat.ltb_spec 191 (String.length kept)).
    - apply take_append. lia.
    - rewrite take_append by lia. now rewrite !take_all by lia. }
  assert (L : (if Nat.ltb 191 (String.length kept) then 191%nat
               else String.length kept) = Nat.min 191 (String.length kept)).
  { destruct (Nat.ltb_spec 191 (String.length kept)); lia. }
  rewrite B, L.
  unfold exec, extend, sendWithRetry, bind, gets, emit, modify. cbn [fst snd trace].
  fold ok. unfold outcome.
  destruct ok; unfold Serial_print, Serial_println, emit, modify, bind; cbn;
    now rewrite <- !app_assoc.
Qed.

(** C5: a line [TO:<dest>:<payload>] whose payload keeps at least one byte
    once its trailing line ends are dropped makes the gateway call the radio
    send exactly once, with the destination read from [<dest>] and the kept
    bytes (191 at most), and then write exactly one outcome object on the
    serial port: [sent_to] when the send reports success, [sent_error_to]
    when it reports failure. *)
Theorem valid_line_forwarded (dest body ends : string) (x : ascii) (st : state) :
  colon_free dest = true ->
  line_end x = false ->
  all_chars line_end ends = true ->
  let kept := (body ++ String x "")%string in
  let payload := (kept ++ ends)%string in
  let ok := send_ok (List.length (radio_sends (trace st))) in
  exists evs,
    trace (exec (forwardSerialToRadio ("TO:" ++ dest ++ ":" ++ payload)) st)
      = trace st ++ evs /\
    radio_sends evs =
      [RadioSend (to_uint8 (atoi dest)) (take 191 kept)
         (Z.of_nat (Nat.min 191 (String.length kept)))] /\
    serial_out evs =
      (if ok
       then SENT_TO_OPEN ++ dec (atoi dest) ++ PAYLOAD_OPEN ++ payload
            ++ CLOSE_STR ++ CRLF
       else SENT_ERROR_OPEN ++ dec (atoi dest) ++ "}" ++ CRLF)%string.
Proof.
  intros Hd Hx He kept payload ok.
  pose proof (forward_valid dest body ends x st Hd Hx He) as F.
  cbv zeta in F. fold kept payload ok in F. rewrite F.
  eexists. split; [reflexivity|].
  unfold outcome. destruct ok;
    cbn [radio_sends filter is_radio_send serial_out];
    rewrite ?append_nil_r; auto.
Qed.

(** *** Radio to serial *)

Lemma extend_extend (st : state) (a b : list event) :
  extend (extend st a) b = extend st (a ++ b).
Proof. unfold extend. cbn. now rewrite app_assoc. Qed.

Lemma extend_nil (st : state) : extend st [] = st.
Proof. destruct st. unfold extend. cbn. now rewrite app_nil_r. Qed.

Definition escaped_events (payload : list ascii) : list event :=
  flat_map (fun c =>
              if Ascii.eqb c QUOTE || Ascii.eqb c BACKSLASH
              then [SerialWrite (String BACKSLASH ""); SerialWrite (String c "")]
              else [SerialWrite (String c "")]) payload.

Lemma print_escaped_exec (payload : list ascii) (st : state) :
  exec (for_each print_escaped payload) st = extend st (escaped_events payload).
Proof.
  revert st. induction payload as [|c r IH]; intros st.
  - cbn. now rewrite extend_nil.
  - cbn [for_each]. rewrite exec_seq, IH.
    assert (E : exec (print_escaped c) st =
                extend st (if Ascii.eqb c QUOTE || Ascii.eqb c BACKSLASH
                           then [SerialWrite (String BACKSLASH "");
                                 SerialWrite (String c "")]
                           else [SerialWrite (String c "")])).
    { unfold print_escaped, when, Serial_print_char.
      destruct (Ascii.eqb c QUOTE || Ascii.eqb c BACKSLASH);
        unfold exec, extend, emit, modify, bind, ret; cbn;
        now rewrite <- ?app_assoc. }
    rewrite E, extend_extend. reflexivity.
Qed.

Lemma serial_out_escaped (payload : list ascii) :
  serial_out (escaped_events payload) = escape payload.
Proof.
  induction payload as [|c r IH]; [reflexivity|].
  cbn [escaped_events flat_map escape]. fold (escaped_events r).
  rewrite serial_out_app, IH. unfold escape_byte.
  now destruct (Ascii.eqb c QUOTE || Ascii.eqb c BACKSLASH).
Qed.

Lemma radio_sends_escaped (payload : list ascii) :
  radio_sends (escaped_events payload) = [].
Proof.
  induction payload as [|c r IH]; [reflexivity|].
  cbn [escaped_events flat_map]. fold (escaped_events r).
  rewrite radio_sends_app, IH.
  now destruct (Ascii.eqb c QUOTE || Ascii.eqb c BACKSLASH).
Qed.


Lemma count_char_append (c : ascii) (a b : string) :
  count_char c (a ++ b) = (count_char c a + count_char c b)%nat.
Proof. induction a; cbn; [reflexivity|]. rewrite IHa. lia. Qed.


Lemma lf_free_uint (d : Decimal.uint) :
  lf_free (NilEmpty.string_of_uint d) = true.
Proof. induction d; cbn; auto. Qed.

Lemma lf_free_dec (z : Z) : lf_free (dec z) = true.
Proof.
  unfold dec, NilZero.string_of_int, NilZero.string_of_uint.
  destruct (Z.to_int z) as [d|d]; destruct d; cbn; auto using lf_free_uint;
    apply (lf_free_uint d).
Qed.

Lemma lf_free_append (a b : string) :
  lf_free (a ++ b) = lf_free a && lf_free b.
Proof.
  unfold lf_free. induction a as [|c a IH]; cbn; [reflexivity|].
  now rewrite IH, andb_assoc.
Qed.

Lemma lf_free_count (s : string) : lf_free s = true -> count_char LF s = O.
Proof.
  unfold lf_free. induction s as [|c s IH]; cbn; [reflexivity|]. intros H.
  apply andb_true_iff in H. destruct H as [Hc Hs].
  destruct (Ascii.eqb c LF); [discriminate | auto].
Qed.

Definition frame_events (f : frame) : list event :=
  let n := Z.min (DATALEN f) RH_RF69_MAX_MESSAGE_LEN in
  [SerialWrite SRC_OPEN; SerialWrite (dec (SENDERID f));
   SerialWrite RSSI_OPEN; SerialWrite (dec (RSSI f)); SerialWrite PAYLOAD_OPEN]
  ++ escaped_events (firstn (Z.to_nat n) (DATA f))
  ++ [SerialWrite CLOSE_STR; SerialWrite CRLF].

Lemma frame_events_exec (f : frame) (st : state) :
  exec (on_receive RH_RF69_MAX_MESSAGE_LEN f) st = extend st (frame_events f).
Proof.
  unfold on_receive, frame_events. cbv zeta.
  set (payload := firstn _ (DATA f)).
  rewrite !exec_seq, print_escaped_exec.
  unfold exec, extend, Serial_print, Serial_println, emit, modify, bind. cbn.
  now rewrite <- !app_assoc.
Qed.


(** *** The serial line buffer *)

Lemma store_length (a : list ascii) (i : nat) (x : ascii) :
  List.length (store a i x) = List.length a.
Proof.
  revert i. induction a as [|y a IH]; intros i; [reflexivity|].
  destruct i; cbn; auto.
Qed.

Lemma store_firstn (a b : list ascii) (i : nat) (x : ascii) :
  firstn i a = firstn i b ->
  (i < List.length a)%nat -> (i < List.length b)%nat ->
  firstn (S i) (store a i x) = firstn (S i) (store b i x).
Proof.
  revert a b. induction i as [|i IH]; intros [|y a] [|z b] H La Lb;
    cbn in La, Lb; try lia.
  - reflexivity.
  - cbn [firstn] in H. injection H as -> H.
    cbn [store]. change (firstn (S (S i)) (z :: ?l)) with (z :: firstn (S i) l).
    f_equal. apply IH; [assumption | lia | lia].
Qed.

(** The line read from the buffer depends on the bytes before the
    terminator only. *)
Lemma c_str_store (a b : list ascii) (i : nat) :
  firstn i a = firstn i b ->
  (i < List.length a)%nat -> (i < List.length b)%nat ->
  c_str (store a i NUL) = c_str (store b i NUL).
Proof.
  revert a b. induction i as [|i IH]; intros [|y a] [|z b] H La Lb;
    cbn in La, Lb; try lia.
  - reflexivity.
  - cbn [firstn] in H. injection H as -> H.
    cbn [store c_str]. destruct (Ascii.eqb z NUL); [reflexivity|].
    f_equal. apply IH; [assumption | lia | lia].
Qed.

(** What is delivered does not depend on stale bytes behind the position. *)
Lemma delivered_stale (avail : list ascii) (a b : list ascii) (pos : nat) :
  List.length a = SERIAL_BUF_LEN -> List.length b = SERIAL_BUF_LEN ->
  (pos < SERIAL_BUF_LEN)%nat ->
  firstn pos a = firstn pos b ->
  delivered avail a pos = delivered avail b pos.
Proof.
  revert a b pos. induction avail as [|c r IH]; intros a b pos La Lb Hp H;
    [reflexivity|].
  cbn [delivered]. unfold buffer_byte.
  destruct (Ascii.eqb c CR); [now apply IH|].
  destruct (Ascii.eqb c LF).
  - rewrite (c_str_store a b pos H) by lia.
    assert (T : delivered r (store a pos NUL) 0 = delivered r (store b pos NUL) 0).
    { apply IH; rewrite ?store_length; auto. unfold SERIAL_BUF_LEN. lia. }
    destruct (Nat.ltb 0 pos); now rewrite T.
  - destruct (Nat.ltb_spec pos (SERIAL_BUF_LEN - 1)).
    + apply IH; rewrite ?store_length; auto.
      * unfold SERIAL_BUF_LEN in *. lia.
      * apply store_firstn; [assumption | lia | lia].
    + apply IH; auto. unfold SERIAL_BUF_LEN. lia.
Qed.

(** Plain bytes that fit are buffered and deliver nothing. *)
Lemma delivered_fill (head rest : list ascii) (buf : list ascii) (pos : nat) :
  forallb plain head = true ->
  (pos + List.length head <= SERIAL_BUF_LEN - 1)%nat ->
  exists buf',
    List.length buf' = List.length buf /\
    delivered (head ++ rest) buf pos = delivered rest buf' (pos + List.length head).
Proof.
  revert buf pos. induction head as [|c h IH]; intros buf pos Hp Hl.
  - exists buf. cbn. now rewrite Nat.add_0_r.
  - cbn [forallb List.length] in Hp, Hl.
    apply andb_true_iff in Hp. destruct Hp as [Hc Hh].
    unfold plain in Hc. apply andb_true_iff in Hc. destruct Hc as [C1 C2].
    apply negb_true_iff in C1, C2.
    cbn [app delivered]. unfold buffer_byte. rewrite C1, C2.
    destruct (Nat.ltb_spec pos (SERIAL_BUF_LEN - 1)); [|lia].
    destruct (IH (store buf pos c) (S pos) Hh ltac:(lia)) as [buf' [L D]].
    exists buf'. rewrite L, store_length, D. split; [reflexivity|].
    cbn [List.length]. now rewrite Nat.add_succ_r.
Qed.

(** C7, as the sketch has it: when 511 bytes are buffered and one more
    arrives before a line end, those 512 bytes are discarded and buffering
    starts afresh with the byte that follows; the bytes after the overflow are
    handled as the beginning of a new line. *)
Theorem overflow_restarts_line (head rest : list ascii) (c : ascii)
    (buf : list ascii) :
  List.length buf = SERIAL_BUF_LEN ->
  List.length head = (SERIAL_BUF_LEN - 1)%nat ->
  forallb plain (head ++ [c]) = true ->
  delivered (head ++ c :: rest) buf O =
  delivered rest (repeat NUL SERIAL_BUF_LEN) O.
Proof.
  intros Lb Lh Hp. rewrite forallb_app in Hp.
  apply andb_true_iff in Hp. destruct Hp as [Hh Hc].
  cbn in Hc. rewrite andb_true_r in Hc.
  unfold plain in Hc. apply andb_true_iff in Hc. destruct Hc as [C1 C2].
  apply negb_true_iff in C1, C2.
  destruct (delivered_fill head (c :: rest) buf O Hh ltac:(rewrite Lh; apply le_n))
    as [buf' [L D]].
  rewrite D, Lh. cbn [Nat.add delivered]. unfold buffer_byte.
  rewrite C1, C2, Nat.ltb_irrefl.
  apply delivered_stale.
  - now rewrite L.
  - apply repeat_length.
  - unfold SERIAL_BUF_LEN. lia.
  - reflexivity.
Qed.

(** [forwardSerialToRadio] reads and writes the trace only. *)
Lemma forward_frame (l : string) (tr : list event) :
  exists evs, forall b p,
    exec (forwardSerialToRadio l) (mkState tr b p) = mkState (tr ++ evs) b p.
Proof.
  unfold forwardSerialToRadio.
  destruct (negb (strncmp l "TO:" 3 =? 0)).
  { eexists. intros b p.
    unfold exec, Serial_print, Serial_println, emit, modify, bind. cbn.
    rewrite <- !app_assoc. reflexivity. }
  cbv zeta. destruct (strchr (advance l 3) ":"%char) as [colon|].
  2:{ eexists. intros b p.
      unfold exec, Serial_println, emit, modify, bind. cbn.
      rewrite <- !app_assoc. reflexivity. }
  destruct (Nat.eqb _ 0).
  { eexists. intros b p.
    unfold exec, Serial_println, emit, modify, bind. cbn.
    rewrite <- !app_assoc. reflexivity. }
  destruct (send_ok (List.length (radio_sends tr))) eqn:K;
    eexists; intros b p;
    unfold exec, sendWithRetry, Serial_print, Serial_println, emit, modify,
      bind, gets, ret; cbn -[radio_sends]; rewrite K; cbn -[radio_sends];
    rewrite <- !app_assoc; reflexivity.
Qed.

Lemma forwards_frame (ls : list string) (tr : list event) :
  exists evs, forall b p,
    exec (for_each forwardSerialToRadio ls) (mkState tr b p)
    = mkState (tr ++ evs) b p.
Proof.
  revert tr. induction ls as [|l ls IH]; intros tr.
  - exists []. intros b p. cbn. now rewrite app_nil_r.
  - destruct (forward_frame l tr) as [e1 H1].
    destruct (IH (tr ++ e1)) as [e2 H2].
    exists (e1 ++ e2). intros b p.
    cbn [for_each]. rewrite exec_seq, H1, H2. now rewrite app_assoc.
Qed.

(** The loop over the available bytes calls [forwardSerialToRadio] on the
    delivered lines, in order, and on nothing else. *)
Lemma pump_delivers (avail : list ascii) (st : state) :
  trace (exec (for_each (serial_byte send_ok) avail) st) =
  trace (exec (for_each forwardSerialToRadio
                 (delivered avail (serialBuf st) (serialPos st))) st).
Proof.
  revert st. induction avail as [|c r IH]; intros [tr b p]; [reflexivity|].
  cbn [for_each delivered serialBuf serialPos]. rewrite exec_seq.
  destruct (buffer_byte c b p) as [[b' p'] line] eqn:B.
  assert (S1 : exec (serial_byte send_ok c) (mkState tr b p) =
               match line with
               | Some l => exec (forwardSerialToRadio l) (mkState tr b' p')
               | None => mkState tr b' p'
               end).
  { unfold serial_byte, exec, bind, gets, modify. cbn. rewrite B.
    destruct line; reflexivity. }
  rewrite S1. destruct line as [l|].
  - destruct (forward_frame l tr) as [e1 H1].
    rewrite H1, IH. cbn [serialBuf serialPos for_each].
    rewrite exec_seq, H1.
    destruct (forwards_frame (delivered r b' p') (tr ++ e1)) as [e2 H2].
    now rewrite !H2.
  - rewrite IH. cbn [serialBuf serialPos].
    destruct (forwards_frame (delivered r b' p') tr) as [e2 H2].
    now rewrite !H2.
Qed.

(** *** Lines of the serial stream *)

Lemma lines_from_app (cur a b : string) :
  lines_from cur (a ++ b) = lines_from cur a ++ lines_from (pending cur a) b.
Proof.
  revert cur. induction a as [|c a IH]; intros cur; cbn; [reflexivity|].
  destruct (Ascii.eqb c LF); cbn; now rewrite IH.
Qed.

Lemma pending_app (cur a b : string) :
  pending cur (a ++ b) = pending (pending cur a) b.
Proof.
  revert cur. induction a as [|c a IH]; intros cur; cbn; [reflexivity|].
  destruct (Ascii.eqb c LF); now rewrite IH.
Qed.

Lemma lines_from_plain (cur x : string) :
  lf_free x = true -> lines_from cur x = [] /\ pending cur x = (cur ++ x)%string.
Proof.
  unfold lf_free. revert cur. induction x as [|c x IH]; intros cur H; cbn in *.
  - now rewrite append_nil_r.
  - apply andb_true_iff in H. destruct H as [Hc Hx].
    apply negb_true_iff in Hc. rewrite Hc.
    destruct (IH (cur ++ String c "")%string Hx) as [L P].
    rewrite L, P, append_assoc. auto.
Qed.

(** A text without line feed followed by a line end is one line. *)
Lemma lines_from_record (cur x : string) :
  lf_free x = true ->
  lines_from cur (x ++ CRLF) = [(cur ++ x ++ String CR "")%string] /\
  pending cur (x ++ CRLF) = EmptyString.
Proof.
  intros H. destruct (lines_from_plain cur x H) as [L P].
  rewrite lines_from_app, pending_app, L, P. cbn.
  now rewrite append_assoc.
Qed.

(** How far a line agrees with the first three characters of the marker:
    nothing read, the brace read, brace and quote read, all three read, or a
    disagreement found. *)
Inductive opening : Type := QStart | QBrace | QQuote | QMarker | QOther.

Definition opening_step (q : opening) (c : ascii) : opening :=
  match q with
  | QStart => if Ascii.eqb c "{"%char then QBrace else QOther
  | QBrace => if Ascii.eqb c QUOTE then QQuote else QOther
  | QQuote => if Ascii.eqb c "g"%char then QMarker else QOther
  | QMarker => QMarker
  | QOther => QOther
  end.

Fixpoint opening_run (q : opening) (s : string) : opening :=
  match s with
  | EmptyString => q
  | String c r => opening_run (opening_step q c) r
  end.

Definition opening_of (line : string) : opening := opening_run QStart line.

Definition harmless (q : opening) : bool :=
  match q with
  | QStart | QBrace | QOther => true
  | QQuote | QMarker => false
  end.

Lemma opening_run_app (q : opening) (a b : string) :
  opening_run q (a ++ b) = opening_run (opening_run q a) b.
Proof. revert q. induction a; intros q; cbn; auto. Qed.

Lemma opening_run_other (s : string) : opening_run QOther s = QOther.
Proof. induction s; cbn; auto. Qed.

Lemma opening_other_prefix (k rest : string) :
  opening_of k = QOther -> opening_of (k ++ rest) = QOther.
Proof.
  unfold opening_of. intros H.
  now rewrite opening_run_app, H, opening_run_other.
Qed.

Lemma opening_ready : opening_of READY_LINE = QMarker.
Proof. reflexivity. Qed.

(** The stream is made of whole lines, none of which opens like the
    marker. *)
Definition records (evs : list event) : Prop :=
  pending "" (serial_out evs) = EmptyString /\
  Forall (fun l => opening_of l <> QMarker) (lines (serial_out evs)).

Lemma records_nil : records [].
Proof. split; [reflexivity | constructor]. Qed.

Lemma records_app (a b : list event) : records a -> records b -> records (a ++ b).
Proof.
  intros [Pa La] [Pb Lb]. unfold records, lines in *.
  rewrite serial_out_app, pending_app, lines_from_app, Pa.
  split; [exact Pb | now apply Forall_app].
Qed.

Lemma records_one (evs : list event) (x : string) :
  serial_out evs = (x ++ CRLF)%string ->
  lf_free x = true ->
  opening_of x = QOther ->
  records evs.
Proof.
  intros E H O. unfold records, lines. rewrite E.
  destruct (lines_from_record "" x H) as [L P]. rewrite L, P.
  split; [reflexivity|]. constructor; [|constructor].
  cbn [append]. rewrite (opening_other_prefix x _ O). discriminate.
Qed.

(** Inside an escaped payload no line can start with brace and quote, since
    a quote only comes after a backslash; the closing quote and brace do not
    complete the marker's opening either. *)
Lemma escaped_lines (payload : list ascii) (cur : string) :
  harmless (opening_of cur) = true ->
  pending cur (escape payload ++ CLOSE_STR ++ CRLF) = EmptyString /\
  Forall (fun l => opening_of l <> QMarker)
         (lines_from cur (escape payload ++ CLOSE_STR ++ CRLF)).
Proof.
  revert cur. induction payload as [|c r IH]; intros cur H.
  - cbn. split; [reflexivity|]. constructor; [|constructor].
    unfold opening_of in *. rewrite !opening_run_app. cbn.
    destruct (opening_run QStart cur); cbn in *; try discriminate.
  - cbn [escape]. unfold escape_byte.
    destruct (Ascii.eqb_spec c LF) as [->|N].
    + cbn. destruct (IH EmptyString eq_refl) as [P L].
      split; [exact P|]. constructor; [|exact L].
      intros K. rewrite K in H. discriminate H.
    + apply Ascii.eqb_neq in N.
      destruct (Ascii.eqb c QUOTE || Ascii.eqb c BACKSLASH) eqn:Q.
      * cbn. rewrite N.
        apply IH. unfold opening_of in *. rewrite !opening_run_app. cbn.
        destruct (opening_run QStart cur); cbn in *; try discriminate;
          reflexivity.
      * cbn. rewrite N.
        apply IH. unfold opening_of in *. rewrite !opening_run_app. cbn.
        apply orb_false_iff in Q. destruct Q as [Q1 Q2].
        destruct (opening_run QStart cur); cbn in *; try discriminate;
          rewrite ?Q1; try reflexivity.
        now destruct (Ascii.eqb c "{"%char).
Qed.

Lemma records_frame (f : frame) : records (frame_events f).
Proof.
  unfold frame_events. cbv zeta. set (payload := firstn _ (DATA f)).
  set (head := [SerialWrite SRC_OPEN; SerialWrite (dec (SENDERID f));
                SerialWrite RSSI_OPEN; SerialWrite (dec (RSSI f));
                SerialWrite PAYLOAD_OPEN]).
  set (text := (SRC_OPEN ++ dec (SENDERID f) ++ RSSI_OPEN ++ dec (RSSI f)
                ++ PAYLOAD_OPEN)%string).
  assert (Hh : serial_out head = text).
  { subst head text. cbn [serial_out]. now rewrite append_nil_r. }
  assert (Hl : lf_free text = true).
  { subst text. rewrite !lf_free_append, !lf_free_dec. reflexivity. }
  assert (Ho : opening_of text = QOther).
  { subst text. now apply opening_other_prefix. }
  destruct (lines_from_plain "" text Hl) as [L P]. cbn [append] in P.
  destruct (escaped_lines payload text) as [P2 L2]; [now rewrite Ho|].
  unfold records, lines.
  rewrite !serial_out_app, Hh, serial_out_escaped.
  cbn [serial_out]. rewrite append_nil_r.
  rewrite pending_app, lines_from_app, L, P. cbn [app].
  split; assumption.
Qed.

Lemma lf_free_advance (s : string) (n : nat) :
  lf_free s = true -> lf_free (advance s n) = true.
Proof.
  unfold lf_free. revert s. induction n as [|n IH]; intros s H; [exact H|].
  destruct s as [|c s]; [reflexivity|]. cbn in *.
  apply andb_true_iff in H. destruct H as [_ H]. now apply IH.
Qed.

Lemma lf_free_strchr (s t : string) (c : ascii) :
  strchr s c = Some t -> lf_free s = true -> lf_free t = true.
Proof.
  unfold lf_free. induction s as [|x s IH]; cbn; [discriminate|].
  intros E H. destruct (Ascii.eqb x c).
  - injection E as <-. exact H.
  - apply andb_true_iff in H. destruct H as [_ H]. now apply IH.
Qed.

(** Whatever [forwardSerialToRadio] answers to a line without line feed is
    one line that opens with an error or an outcome key. *)
Lemma forward_record (l : string) (tr : list event) :
  lf_free l = true ->
  exists evs,
    records evs /\
    forall b p,
      exec (forwardSerialToRadio l) (mkState tr b p) = mkState (tr ++ evs) b p.
Proof.
  intros Hl. unfold forwardSerialToRadio.
  destruct (negb (strncmp l "TO:" 3 =? 0)).
  { eexists. split.
    2:{ intros b p.
        unfold exec, Serial_print, Serial_println, emit, modify, bind. cbn.
        rewrite <- !app_assoc. reflexivity. }
    apply (records_one _ (ERR_UNKNOWN_OPEN ++ l ++ CLOSE_STR)%string).
    - cbn [app serial_out]. now rewrite append_nil_r, !append_assoc.
    - rewrite !lf_free_append, Hl. reflexivity.
    - now apply opening_other_prefix. }
  cbv zeta. destruct (strchr (advance l 3) ":"%char) as [colon|] eqn:C.
  2:{ eexists. split.
      2:{ intros b p.
          unfold exec, Serial_println, emit, modify, bind. cbn.
          rewrite <- !app_assoc. reflexivity. }
      apply (records_one _ ERR_BAD_FORMAT); reflexivity. }
  destruct (Nat.eqb _ 0).
  { eexists. split.
    2:{ intros b p.
        unfold exec, Serial_println, emit, modify, bind. cbn.
        rewrite <- !app_assoc. reflexivity. }
    apply (records_one _ ERR_EMPTY_PAYLOAD); reflexivity. }
  assert (Hp : lf_free (advance colon 1) = true).
  { apply lf_free_advance. apply (lf_free_strchr _ _ _ C).
    now apply lf_free_advance. }
  destruct (send_ok (List.length (radio_sends tr))) eqn:K.
  - eexists. split.
    2:{ intros b p.
        unfold exec, sendWithRetry, Serial_print, Serial_println, emit, modify,
          bind, gets, ret; cbn -[radio_sends]; rewrite K; cbn -[radio_sends].
        rewrite <- !app_assoc. reflexivity. }
    apply (records_one _ (SENT_TO_OPEN ++ dec (atoi (advance l 3))
                          ++ PAYLOAD_OPEN ++ advance colon 1 ++ CLOSE_STR)%string).
    + cbn [app serial_out]. now rewrite append_nil_r, !append_assoc.
    + rewrite !lf_free_append, lf_free_dec, Hp. reflexivity.
    + now apply opening_other_prefix.
  - eexists. split.
    2:{ intros b p.
        unfold exec, sendWithRetry, Serial_print, Serial_println, emit, modify,
          bind, gets, ret; cbn -[radio_sends]; rewrite K; cbn -[radio_sends].
        rewrite <- !app_assoc. reflexivity. }
    apply (records_one _ (SENT_ERROR_OPEN ++ dec (atoi (advance l 3)) ++ "}")%string).
    + cbn [app serial_out]. now rewrite append_nil_r, !append_assoc.
    + rewrite !lf_free_append, lf_free_dec. reflexivity.
    + now apply opening_other_prefix.
Qed.

Definition lf_buf (buf : list ascii) : bool :=
  forallb (fun c => negb (Ascii.eqb c LF)) buf.

Lemma c_str_lf_free (buf : list ascii) :
  lf_buf buf = true -> lf_free (c_str buf) = true.
Proof.
  unfold lf_buf, lf_free. induction buf as [|c r IH]; cbn; [reflexivity|].
  intros H. apply andb_true_iff in H. destruct H as [Hc Hr].
  destruct (Ascii.eqb c NUL); [reflexivity|]. cbn. now rewrite Hc, IH.
Qed.

Lemma store_lf (buf : list ascii) (i : nat) (x : ascii) :
  lf_buf buf = true -> Ascii.eqb x LF = false -> lf_buf (store buf i x) = true.
Proof.
  unfold lf_buf. revert i. induction buf as [|c r IH]; intros i H X;
    [reflexivity|].
  cbn in H. apply andb_true_iff in H. destruct H as [Hc Hr].
  destruct i; cbn; [now rewrite X, Hr | now rewrite Hc, IH].
Qed.

(** A computation that writes whole lines, none opening like the marker,
    and keeps line feeds out of the line buffer. *)
Definition Tidy (c : @M state unit) : Prop :=
  forall st, lf_buf (serialBuf st) = true ->
    exists evs,
      trace (exec c st) = trace st ++ evs /\ records evs /\
      lf_buf (serialBuf (exec c st)) = true.

Lemma Tidy_ret : Tidy (ret tt).
Proof.
  intros st H. exists []. cbn. rewrite app_nil_r. auto using records_nil.
Qed.

Lemma Tidy_seq (c k : M unit) : Tidy c -> Tidy k -> Tidy (c ;; k).
Proof.
  intros Hc Hk st H. rewrite exec_seq.
  destruct (Hc st H) as [e1 [T1 [R1 B1]]].
  destruct (Hk (exec c st) B1) as [e2 [T2 [R2 B2]]].
  exists (e1 ++ e2). rewrite T2, T1, app_assoc. auto using records_app.
Qed.

Lemma Tidy_for_each {A} (f : A -> M unit) (l : list A) :
  (forall a, Tidy (f a)) -> Tidy (for_each f l).
Proof.
  intros H. induction l as [|a l IH]; cbn [for_each];
    [apply Tidy_ret | now apply Tidy_seq].
Qed.

Lemma Tidy_delay (ms : Z) : Tidy (delay ms).
Proof.
  intros st H. exists [Delay ms]. cbn. split; [reflexivity|].
  split; [|exact H]. split; [reflexivity | constructor].
Qed.

Lemma Tidy_on_receive (f : frame) : Tidy (on_receive RH_RF69_MAX_MESSAGE_LEN f).
Proof.
  intros st H. rewrite frame_events_exec. exists (frame_events f).
  cbn [extend trace serialBuf]. auto using records_frame.
Qed.

Lemma Tidy_serial_byte (c : ascii) : Tidy (serial_byte send_ok c).
Proof.
  intros [tr b p] H. cbn [serialBuf] in H.
  destruct (buffer_byte c b p) as [[b' p'] line] eqn:B.
  assert (S1 : exec (serial_byte send_ok c) (mkState tr b p) =
               match line with
               | Some l => exec (forwardSerialToRadio l) (mkState tr b' p')
               | None => mkState tr b' p'
               end).
  { unfold serial_byte, exec, bind, gets, modify. cbn. rewrite B.
    destruct line; reflexivity. }
  assert (Hb : lf_buf b' = true /\
               match line with Some l => lf_free l = true | None => True end).
  { unfold buffer_byte in B.
    destruct (Ascii.eqb c CR); [injection B as <- <- <-; auto|].
    destruct (Ascii.eqb c LF) eqn:E.
    - injection B as <- <- <-.
      assert (L : lf_buf (store b p NUL) = true) by now apply store_lf.
      split; [exact L|]. destruct (Nat.ltb 0 p); [|exact I].
      now apply c_str_lf_free.
    - destruct (Nat.ltb p (SERIAL_BUF_LEN - 1)); injection B as <- <- <-;
        auto using store_lf. }
  destruct Hb as [Hb Hl]. rewrite S1. destruct line as [l|].
  - destruct (forward_record l tr Hl) as [evs [R F]].
    rewrite F. exists evs. cbn [trace serialBuf]. auto.
  - exists []. cbn [trace serialBuf]. rewrite app_nil_r. auto using records_nil.
Qed.

Lemma Tidy_loop (rx : option frame) (avail : list ascii) :
  Tidy (loop send_ok RH_RF69_MAX_MESSAGE_LEN rx avail).
Proof.
  unfold loop. apply Tidy_seq.
  - destruct rx; [apply Tidy_on_receive | apply Tidy_ret].
  - apply Tidy_seq; [|apply Tidy_delay].
    apply Tidy_for_each, Tidy_serial_byte.
Qed.

(** The events of the branch of [setup] taken after [rf69.initialize]. *)
Definition init_events (radio_ok : bool) : list event :=
  if radio_ok then
    [RadioSetHighPower; RadioEncrypt RF_AES_KEY; RadioEnableAutoPower true;
     SerialWrite "Apertus Gateway RFM69 initialized"; SerialWrite CRLF]
  else
    [SerialWrite "RFM69 init failed"; SerialWrite CRLF].

Definition setup_events (radio_ok : bool) : list event :=
  [SerialBegin 115200; Delay 200; SpiBegin;
   RadioInitialize RF69_FREQ RF_GATEWAY_ID RF_NETWORK_ID]
  ++ init_events radio_ok
  ++ [SerialWrite READY; SerialWrite CRLF].

Lemma setup_exec (radio_ok : bool) :
  exec (setup radio_ok) boot = extend boot (setup_events radio_ok).
Proof. destruct radio_ok; reflexivity. Qed.

Lemma no_marker_count (ls : list string) :
  Forall (fun l => opening_of l <> QMarker) ls ->
  count_occ string_dec ls READY_LINE = O.
Proof.
  intros H. apply count_occ_not_In. intros K.
  rewrite Forall_forall in H. apply (H _ K). exact opening_ready.
Qed.

(** C8: [setup] writes the readiness marker as its last line, after the
    radio initialisation and whichever branch follows it; in the serial
    stream of a whole run, made of [setup] and any number of passes of
    [loop] over any frames and serial bytes, exactly one line is the
    marker. *)
Theorem ready_marker_once (radio_ok : bool)
    (passes : list (option frame * list ascii)) :
  let tr := trace (run send_ok RH_RF69_MAX_MESSAGE_LEN radio_ok passes) in
  exists after,
    tr = [SerialBegin 115200; Delay 200; SpiBegin;
          RadioInitialize RF69_FREQ RF_GATEWAY_ID RF_NETWORK_ID]
         ++ init_events radio_ok
         ++ [SerialWrite READY; SerialWrite CRLF]
         ++ after /\
    count_occ string_dec (lines (serial_out tr)) READY_LINE = 1%nat /\
    count_occ string_dec (lines (serial_out after)) READY_LINE = O.
Proof.
  cbv zeta. unfold run. rewrite exec_seq, setup_exec.
  destruct (Tidy_for_each (fun p => loop send_ok RH_RF69_MAX_MESSAGE_LEN
                                      (fst p) (snd p)) passes
              (fun p => Tidy_loop (fst p) (snd p))
              (extend boot (setup_events radio_ok)) eq_refl)
    as [evs [T [[P L] _]]].
  unfold loops. rewrite T. cbn [extend trace boot app].
  exists evs. split; [|split].
  - unfold setup_events. now rewrite <- !app_assoc.
  - change (SerialBegin 115200 :: Delay 200 :: SpiBegin
            :: RadioInitialize RF69_FREQ RF_GATEWAY_ID RF_NETWORK_ID
            :: init_events radio_ok ++ [SerialWrite READY; SerialWrite CRLF])
      with (setup_events radio_ok).
    unfold lines. rewrite serial_out_app, lines_from_app, count_occ_app.
    fold (lines (serial_out evs)). 
    assert (S : pending "" (serial_out (setup_events radio_ok)) = EmptyString)
      by (destruct radio_ok; reflexivity).
    rewrite S. fold (lines (serial_out evs)).
    rewrite (no_marker_count _ L).
    destruct radio_ok; reflexivity.
  - now apply no_marker_count.
Qed.

End Facts.

Lemma malformed_line_rejected_witness :
  exists evs,
    trace (exec (forwardSerialToRadio (fun _ => true) "HELLO") (boot)) =
      trace boot ++ evs /\
    radio_sends evs = [] /\
    serial_out evs = ((ERR_UNKNOWN_OPEN ++ "HELLO" ++ CLOSE_STR) ++ CRLF)%string /\
    radio_sends (trace (exec (forwardSerialToRadio (fun _ => true) "HELLO") boot))
      = radio_sends (trace boot).
Proof.
  apply (malformed_line_rejected (fun _ => true) "HELLO" _ boot).
  apply no_prefix. reflexivity.
Defined.

Lemma valid_line_forwarded_witness :
  exists evs,
    trace (exec (forwardSerialToRadio (fun _ => true) "TO:20:OPEN") boot)
      = trace boot ++ evs /\
    radio_sends evs = [RadioSend 20 "OPEN" 4] /\
    serial_out evs =
      (SENT_TO_OPEN ++ "20" ++ PAYLOAD_OPEN ++ "OPEN" ++ CLOSE_STR ++ CRLF)%string.
Proof.
  apply (valid_line_forwarded (fun _ => true) "20" "OPE" "" "N"%char boot);
    reflexivity.
Defined.

Definition oversized_example : list ascii :=
  repeat "A"%char 511 ++ "X"%char :: list_ascii_of_string "TO:20:OPEN".

(** The tail of an oversized line is delivered, and forwarded to the radio. *)
Lemma oversized_tail_delivered :
  List.length oversized_example = 522%nat /\
  forallb plain oversized_example = true /\
  delivered (oversized_example ++ [LF]) (repeat NUL SERIAL_BUF_LEN) O
    = ["TO:20:OPEN"%string] /\
  radio_sends
    (trace (exec (loop (fun _ => true) 61 None (oversized_example ++ [LF])) boot))
    = [RadioSend 20 "OPEN" 4].
Proof. vm_compute. repeat split. Qed.

(** The buffering rule, read as dropping the whole oversized line, fails on
    a line of 522 bytes: its last ten bytes are delivered. *)
Lemma oversized_line_not_dropped : ~ oversized_line_dropped.
Proof.
  intros H.
  destruct oversized_tail_delivered as [L [P [D _]]].
  specialize (H oversized_example).
  rewrite L, P, D in H.
  assert (K : ["TO:20:OPEN"%string] = []).
  { apply H; [unfold SERIAL_BUF_LEN; lia | reflexivity]. }
  discriminate K.
Qed.

Lemma overflow_restarts_line_witness :
  delivered (repeat "A"%char 511 ++ "X"%char :: list_ascii_of_string "TO:20:OPEN" ++ [LF])
    (repeat NUL SERIAL_BUF_LEN) O =
  delivered (list_ascii_of_string "TO:20:OPEN" ++ [LF]) (repeat NUL SERIAL_BUF_LEN) O.
Proof.
  apply (overflow_restarts_line (repeat "A"%char 511)
           (list_ascii_of_string "TO:20:OPEN" ++ [LF]) "X"%char
           (repeat NUL SERIAL_BUF_LEN)); reflexivity.
Defined.

End GatewayFacts.

(** ** Single-precision rounding

    The operations of the battery mapping act on positive normal values.
    For those, rounding to nearest is described by positions in the
    increasing enumeration of values, and it keeps their order. *)

Module F32Facts.
Import F32.



























(** The positive normal value with mantissa [m] (24 bits) and exponent [e]. *)
Definition nf (m e : Z) : float := S754_finite false (Z.to_pos m) e.



Lemma ord_nf (m e : Z) : 0 < m -> ord (nf m e) = (e + 149) * 8388608 + m.
Proof. intros H. unfold ord, nf. now rewrite Z2Pos.id. Qed.






(** *** Multiplication by a positive normal constant *)


(** *** Division by a positive normal constant with an even mantissa *)





(** *** Addition of a positive normal constant *)






(** *** Subtraction of a smaller value with the same exponent *)






(** *** From binade to binade *)


(** A test that holds for [n] consecutive integers from [b] on. *)
Fixpoint all_from (P : Z -> bool) (b : Z) (n : nat) : bool :=
  match n with
  | O => true
  | S n' => P b && all_from P (b + 1) n'
  end.

Lemma all_from_spec (P : Z -> bool) (b : Z) (n : nat) :
  all_from P b n = true -> forall x, b <= x < b + Z.of_nat n -> P x = true.
Proof.
  revert b. induction n as [|n IH]; intros b H x Hx; [lia|].
  cbn [all_from] in H. apply andb_true_iff in H. destruct H as [H0 H1].
  destruct (Z.eq_dec x b) as [->|N]; [exact H0|].
  apply (IH (b + 1) H1). lia.
Qed.






End F32Facts.

(** ** The battery mapping

    Between the thresholds the function subtracts, divides, multiplies, adds
    and truncates.  Each step keeps the order of its arguments, so the
    result is constant between the positions at which it steps up, and it is
    enough to look at those. *)

Module BatteryFacts.
Import F32 F32Facts GateSpec.
Local Open Scope Z_scope.














(** *** The three operations of the interpolation *)










(** *** Reading the result *)

(** The integer part the cast takes, as a number. *)
Definition int_of (x : float) : Z :=
  match trunc x with Some z => z | None => 0 end.


Lemma trunc_unord (z : Z) : trunc (unord z) = Some (int_of (unord z)).
Proof. reflexivity. Qed.





(** *** From the difference to the result *)



















(** *** The steps of the result *)














(** *** The function *)

Local Abbreviation pct := Gate.batteryPctFromVoltage.
Local Abbreviation MIN := Gate.BATTERY_VOLTS_MIN.
Local Abbreviation MAX := Gate.BATTERY_VOLTS_MAX.







(** *** The voltages the node measures *)

Lemma readBatteryVoltage_value (env : Z -> Gate.inputs) (st : Gate.state) :
  fst (Gate.readBatteryVoltage env st) =
  battery_voltage_of (Gate.analogRead (env (Gate.clock st)) Gate.PIN_BATT_ADC).
Proof. reflexivity. Qed.

Definition measured_ok (raw : Z) : bool :=
  let v := battery_voltage_of raw in
  match pct v with
  | Some r => r =? exact_pct (to_Q v)
  | None => false
  end.

Lemma measured_all_ok : all_from measured_ok 0 1024 = true.
Proof. vm_compute. reflexivity. Qed.

(** For each of the 1024 readings of the converter the result is the mapping
    on rationals, with no rounding error left. *)
Lemma measured_pct_exact (env : Z -> Gate.inputs) (st : Gate.state) :
  0 <= Gate.analogRead (env (Gate.clock st)) Gate.PIN_BATT_ADC <= 1023 ->
  let v := fst (Gate.readBatteryVoltage env st) in
  pct v = Some (exact_pct (to_Q v)).
Proof.
  intros H v. subst v. rewrite readBatteryVoltage_value.
  set (raw := Gate.analogRead (env (Gate.clock st)) Gate.PIN_BATT_ADC) in *.
  pose proof (all_from_spec measured_ok 0 1024 measured_all_ok raw ltac:(lia)) as K.
  unfold measured_ok in K. cbv zeta in K.
  destruct (pct (battery_voltage_of raw)) as [r|]; [|discriminate K].
  apply Z.eqb_eq in K. now rewrite K.
Qed.




End BatteryFacts.

(** ** The gate node over a run

    What the node does between power-up and any later moment: when it sends
    telemetry of its own accord, what it sends at all, and how it reads a
    received payload. *)

(** The events of a sketch at work: writes to outputs and to the serial
    port, waits and sends.  The others configure pins, ports and the
    radio. *)
Definition at_run_time (e : event) : bool :=
  match e with
  | DigitalWrite _ _ | Delay _ | SerialWrite _ | RadioSend _ _ _ => true
  | _ => false
  end.

Module GateRunFacts.
Import CStr CStrFacts Gate GateFacts.
Local Open Scope list_scope.

Section Facts.
Variable env : Z -> inputs.
Variable fmt_f2 : F32.float -> string.

Local Abbreviation telemetry_at := (telemetry_event env fmt_f2).
Local Abbreviation radio_sends := Gateway.radio_sends.

(** One pass of [loop] with no frame received. *)
Lemma loop_idle_exec (st : state) :
  exec (loop env fmt_f2 None) st =
  if TELEMETRY_INTERVAL_MS <=? to_uint32 (to_uint32 (clock st) - lastTelemetryMs st)
  then mkState (trace st ++ [telemetry_at st; Delay 100])
               (to_uint32 (clock st)) (clock st + 100)
  else mkState (trace st ++ [Delay 100]) (lastTelemetryMs st) (clock st + 100).
Proof.
  unfold loop, exec, bind, millis, gets, when, ret. cbn.
  match goal with |- context [if ?b then _ else _] => destruct b end; cbn.
  - rewrite <- !app_assoc. reflexivity.
  - reflexivity.
Qed.

Lemma elapsed_mod (c t0 : Z) :
  0 <= c - t0 < 4294967296 ->
  to_uint32 (to_uint32 c - to_uint32 t0) = c - t0.
Proof.
  intros H. unfold to_uint32.
  rewrite <- Zminus_mod. now apply Z.mod_small.
Qed.

(** An idle pass, by the time gone since the last telemetry. *)
Lemma idle_pass_elapsed (st : state) (t0 : Z) :
  lastTelemetryMs st = to_uint32 t0 ->
  0 <= clock st - t0 < 4294967296 ->
  exec (loop env fmt_f2 None) st =
  if 60000 <=? clock st - t0
  then mkState (trace st ++ [telemetry_at st; Delay 100])
               (to_uint32 (clock st)) (clock st + 100)
  else mkState (trace st ++ [Delay 100]) (lastTelemetryMs st) (clock st + 100).
Proof.
  intros L H. rewrite loop_idle_exec, L, (elapsed_mod _ _ H). reflexivity.
Qed.

(** The periodic telemetry goes by the time elapsed since the last one,
    taken modulo [2^32] as [millis] has it: with [t0] the moment of the last
    telemetry and less than [2^32] ms gone since, a pass of [loop] that
    receives nothing sends telemetry, and notes the moment, exactly when
    60 s or more have gone by, whether or not [millis] overflowed in
    between. *)
Theorem periodic_telemetry_by_elapsed (st : state) (t0 : Z) :
  lastTelemetryMs st = to_uint32 t0 ->
  0 <= clock st - t0 < 4294967296 ->
  let st' := exec (loop env fmt_f2 None) st in
  if 60000 <=? clock st - t0
  then trace st' = trace st ++ [telemetry_at st; Delay 100] /\
       lastTelemetryMs st' = to_uint32 (clock st)
  else trace st' = trace st ++ [Delay 100] /\
       lastTelemetryMs st' = lastTelemetryMs st.
Proof.
  intros L H. cbv zeta. rewrite (idle_pass_elapsed st t0 L H).
  destruct (60000 <=? clock st - t0); split; reflexivity.
Qed.

(** [n] passes with nothing received, begun [g] passes after the last
    telemetry. *)
Lemma idle_passes (n g : nat) (st : state) :
  (g <= 600)%nat ->
  lastTelemetryMs st = to_uint32 (clock st - 100 * Z.of_nat g) ->
  List.length (radio_sends
                 (trace (exec (for_each (loop env fmt_f2) (repeat None n)) st)))
  = (List.length (radio_sends (trace st)) + (g + n - 1) / 600)%nat.
Proof.
  revert g st. induction n as [|n IH]; intros g st Hg L.
  - cbn [repeat for_each]. unfold exec, ret. cbn [snd].
    replace ((g + 0 - 1) / 600)%nat with 0%nat; [lia|].
    symmetry. apply Nat.div_small. lia.
  - cbn [repeat for_each]. rewrite exec_seq.
    rewrite (idle_pass_elapsed st (clock st - 100 * Z.of_nat g) L ltac:(lia)).
    destruct (Z.leb_spec 60000 (clock st - (clock st - 100 * Z.of_nat g)))
      as [E|E].
    + assert (g = 600)%nat by lia. subst g.
      rewrite (IH 1%nat); cbn [trace lastTelemetryMs clock].
      * unfold Gateway.radio_sends. rewrite filter_app, length_app.
        unfold telemetry_event.
        cbn [filter Gateway.is_radio_send List.length].
        replace (600 + S n - 1)%nat with (1 * 600 + n)%nat by lia.
        rewrite Nat.div_add_l by lia.
        replace (1 + n - 1)%nat with n by lia. lia.
      * lia.
      * f_equal. lia.
    + rewrite (IH (S g)); cbn [trace lastTelemetryMs clock].
      * unfold Gateway.radio_sends. rewrite filter_app, length_app.
        cbn [filter Gateway.is_radio_send List.length].
        replace (S g + n - 1)%nat with (g + S n - 1)%nat by lia. lia.
      * lia.
      * rewrite L. f_equal. lia.
Qed.

(** What [setup] does before it sends the boot telemetry. *)
Definition gate_init_events (radio_ok : bool) : list event :=
  if radio_ok then
    [RadioSetHighPower; RadioEncrypt RF_AES_KEY; RadioEnableAutoPower true;
     SerialWrite "RFM69 initialized (Apertus Gate)"; SerialWrite CRLF]
  else
    [SerialWrite "RFM69 init failed"; SerialWrite CRLF].

Definition gate_setup_events (radio_ok : bool) : list event :=
  [PinMode PIN_ACT_OPEN OUTPUT; DigitalWrite PIN_ACT_OPEN LOW;
   PinMode PIN_ACT_CLOSE OUTPUT; DigitalWrite PIN_ACT_CLOSE LOW;
   PinMode PIN_ACT_STOP OUTPUT; DigitalWrite PIN_ACT_STOP LOW;
   PinMode PIN_ACT_LATCH OUTPUT; DigitalWrite PIN_ACT_LATCH LOW;
   PinMode PIN_ACT_UNLATCH OUTPUT; DigitalWrite PIN_ACT_UNLATCH LOW;
   PinMode PIN_ACT_TIMER OUTPUT; DigitalWrite PIN_ACT_TIMER LOW;
   PinMode PIN_LIMIT_OPEN INPUT_PULLUP; PinMode PIN_LIMIT_CLOSED INPUT_PULLUP;
   PinMode PIN_PHOTOEYE INPUT_PULLUP; PinMode PIN_FREE_EXIT INPUT_PULLUP;
   AnalogReference; SerialBegin 115200; Delay 200; SpiBegin;
   RadioInitialize RF69_FREQ RF_NODE_ID RF_NETWORK_ID]
  ++ gate_init_events radio_ok.

(** The state in which [setup] takes the boot snapshot. *)
Definition booted : state := mkState [] 200 200.

Lemma gate_setup_exec (radio_ok : bool) :
  exec (setup env fmt_f2 radio_ok) boot =
  mkState (gate_setup_events radio_ok ++ [telemetry_at booted]) 200 200.
Proof.
  destruct radio_ok; reflexivity.
Qed.

Lemma setup_sends (radio_ok : bool) :
  radio_sends (gate_setup_events radio_ok ++ [telemetry_at booted])
  = [telemetry_at booted].
Proof. destruct radio_ok; reflexivity. Qed.

(** A node that receives nothing sends its telemetry once in [setup] and
    then once in every 600th pass of [loop], each pass waiting 100 ms and
    time passing in [delay] only: after [n] passes it has sent
    [1 + (n - 1) / 600] frames, however long it has been running. *)
Theorem idle_telemetry_schedule (radio_ok : bool) (n : nat) :
  List.length (radio_sends (trace (run env fmt_f2 radio_ok (repeat None n))))
  = (1 + (n - 1) / 600)%nat.
Proof.
  unfold run. rewrite exec_seq, gate_setup_exec.
  rewrite (idle_passes n 0); cbn [trace lastTelemetryMs clock].
  - now rewrite setup_sends.
  - lia.
  - reflexivity.
Qed.

(** *** The uptime *)

(** [uptime_s] counts the whole seconds of [millis]: it never exceeds
    4294967 and, [millis] being a 32-bit counter, it is the same again
    [2^32] ms later: the uptime reported falls back to 0 after 49.7 days. *)
Theorem uptime_wraps (st st' : state) :
  t_uptime_s (fst (snapshot env st)) = (clock st mod 4294967296) / 1000 /\
  0 <= t_uptime_s (fst (snapshot env st)) <= 4294967 /\
  (clock st' = clock st + 4294967296 ->
   t_uptime_s (fst (snapshot env st')) = t_uptime_s (fst (snapshot env st))).
Proof.
  assert (U : forall s, t_uptime_s (fst (snapshot env s))
                        = (clock s mod 4294967296) / 1000).
  { intros s. change (t_uptime_s (fst (snapshot env s)))
      with (to_uint32 (to_uint32 (clock s) / 1000)).
    unfold to_uint32.
    pose proof (Z.mod_pos_bound (clock s) 4294967296 ltac:(lia)) as B.
    apply Z.mod_small. split.
    - apply Z.div_pos; lia.
    - apply Z.div_lt_upper_bound; lia. }
  rewrite !U.
  pose proof (Z.mod_pos_bound (clock st) 4294967296 ltac:(lia)) as B.
  split; [reflexivity|]. split.
  - split; [apply Z.div_pos; lia|].
    apply Z.lt_succ_r. apply Z.div_lt_upper_bound; lia.
  - intros ->. f_equal.
    replace (clock st + 4294967296) with (clock st + 1 * 4294967296) by lia.
    apply Z.mod_add. lia.
Qed.

(** *** What the node sends *)

(** A frame of the node's own making: ACK or telemetry, for the gateway. *)
Definition own_send (e : event) : Prop :=
  forall d b n, e = RadioSend d b n ->
    d = RF_GATEWAY_ID /\
    (e = RadioSend RF_GATEWAY_ID "ACK" 3 \/ exists st, e = telemetry_at st).

Lemma own_send_telemetry (st : state) : own_send (telemetry_at st).
Proof.
  intros d b n H. unfold telemetry_event in H. injection H as <- _ _.
  split; [reflexivity|]. right. now exists st.
Qed.

Lemma own_send_ack : own_send (RadioSend RF_GATEWAY_ID "ACK" 3).
Proof. intros d b n K. injection K as <- _ _. split; [reflexivity | now left]. Qed.

(** An event of the node at work. *)
Definition node_event (e : event) : Prop := own_send e /\ at_run_time e = true.

Ltac own_sends :=
  repeat (apply Forall_cons;
          [split; [first [apply own_send_telemetry | apply own_send_ack
                         | intros ? ? ? K; discriminate K]
                  | reflexivity] |]);
  try apply Forall_nil.

Lemma loop_some (f : frame) (st : state) :
  exec (loop env fmt_f2 (Some f)) st =
  exec (loop env fmt_f2 None) (exec (on_receive env fmt_f2 f) st).
Proof. unfold loop. now rewrite !exec_seq. Qed.

(** A pass of [loop] looks at the clock and at the moment of the last
    telemetry, and appends to the trace. *)
Lemma loop_frame (rx : option frame) (l c : Z) :
  exists evs l' c',
    (forall tr, exec (loop env fmt_f2 rx) (mkState tr l c)
                = mkState (tr ++ evs) l' c') /\
    Forall node_event evs.
Proof.
  assert (I : forall l c, exists evs l' c',
             (forall tr, exec (loop env fmt_f2 None) (mkState tr l c)
                         = mkState (tr ++ evs) l' c') /\
             Forall node_event evs).
  { clear l c. intros l c.
    destruct (TELEMETRY_INTERVAL_MS <=? to_uint32 (to_uint32 c - l)) eqn:E.
    - exists [telemetry_at (mkState [] l c); Delay 100], (to_uint32 c), (c + 100).
      split.
      + intros tr. rewrite loop_idle_exec. cbn [trace lastTelemetryMs clock].
        rewrite E.
        now rewrite (telemetry_event_clock env fmt_f2 (mkState tr l c)
                       (mkState [] l c)).
      + own_sends.
    - exists [Delay 100], l, (c + 100). split.
      + intros tr. rewrite loop_idle_exec. cbn [trace lastTelemetryMs clock].
        now rewrite E.
      + own_sends. }
  destruct rx as [f|]; [|apply I].
  set (d := pulse_ms (command_text f) + 50).
  destruct (I l (c + d)) as (evs & l' & c' & H & F).
  exists (prints f ++ pulse_of (command_text f)
          ++ [RadioSend RF_GATEWAY_ID "ACK" 3; Delay 50;
              telemetry_at (mkState [] l (c + d))] ++ evs), l', c'.
  split.
  - intros tr. rewrite loop_some, on_receive_exec.
    cbn [trace lastTelemetryMs clock]. fold d. rewrite H.
    rewrite (telemetry_event_clock env fmt_f2 (mkState tr l (c + d))
               (mkState [] l (c + d))) by reflexivity.
    f_equal. now rewrite <- !app_assoc.
  - apply Forall_app. split; [unfold prints; own_sends|].
    apply Forall_app. split.
    { unfold pulse_of, pulse. destruct (command_pin _); own_sends. }
    apply Forall_app. split; [own_sends | exact F].
Qed.

Lemma loops_frame (rxs : list (option frame)) (l c : Z) :
  exists evs l' c',
    (forall tr, exec (for_each (loop env fmt_f2) rxs) (mkState tr l c)
                = mkState (tr ++ evs) l' c') /\
    Forall node_event evs.
Proof.
  revert l c. induction rxs as [|rx rxs IH]; intros l c.
  - exists [], l, c. split; [|constructor].
    intros tr. cbn. now rewrite app_nil_r.
  - destruct (loop_frame rx l c) as (e1 & l1 & c1 & H1 & F1).
    destruct (IH l1 c1) as (e2 & l2 & c2 & H2 & F2).
    exists (e1 ++ e2), l2, c2. split.
    + intros tr. cbn [for_each]. rewrite exec_seq, H1, H2.
      now rewrite app_assoc.
    + apply Forall_app. now split.
Qed.

(** Whatever it receives, the node sends nothing but ACK and telemetry,
    and to nobody but the gateway. *)
Theorem sends_ack_and_telemetry_only (radio_ok : bool)
    (rxs : list (option frame)) :
  Forall own_send (trace (run env fmt_f2 radio_ok rxs)).
Proof.
  unfold run. rewrite exec_seq, gate_setup_exec.
  destruct (loops_frame rxs 200 200) as (evs & l & c & H & F).
  rewrite H. cbn [trace].
  apply Forall_app. split.
  - apply Forall_app. split.
    + destruct radio_ok; unfold gate_setup_events, gate_init_events; cbn [app];
        repeat (apply Forall_cons; [intros ? ? ? K; discriminate K|]);
        apply Forall_nil.
    + apply Forall_cons; [apply own_send_telemetry | apply Forall_nil].
  - eapply Forall_impl; [|exact F]. now intros e [O _].
Qed.

(** The outcome of [rf69.initialize] decides what [setup] configures and
    prints, and nothing else: the boot telemetry is sent also after a failed
    initialisation, with high power, the key and auto power left unset, and
    every later event is the same as after a successful one.  Pins, serial
    port and radio are configured in [setup] only. *)
Theorem gate_init_outcome_ignored (rxs : list (option frame)) :
  exists rest,
    forallb at_run_time rest = true /\
    forall radio_ok,
      trace (run env fmt_f2 radio_ok rxs) =
      gate_setup_events radio_ok ++ telemetry_at booted :: rest.
Proof.
  destruct (loops_frame rxs 200 200) as (evs & l & c & H & F).
  exists evs. split.
  - apply forallb_forall. intros e He.
    rewrite Forall_forall in F. now destruct (F e He).
  - intros radio_ok.
    unfold run. rewrite exec_seq, gate_setup_exec, H. cbn [trace].
    now rewrite <- app_assoc.
Qed.

(** *** The command text *)

Lemma command_text_cut (f : frame) :
  command_text f = c_str (firstn 127 (DATA f)).
Proof.
  unfold command_text, DATALEN. cbv zeta. f_equal.
  change (128 - 1) with 127.
  destruct (Z.min_spec (Z.of_nat (List.length (DATA f))) 127) as [[H ->]|[H ->]].
  - rewrite Nat2Z.id, firstn_all. symmetry. apply firstn_all2. lia.
  - reflexivity.
Qed.

Lemma c_str_prefix (name : string) (tail : list ascii) :
  nul_free name -> tail = [] \/ (exists r, tail = NUL :: r) ->
  c_str (list_ascii_of_string name ++ tail) = name.
Proof.
  intros Hn Ht. induction name as [|x name IH]; cbn [list_ascii_of_string app].
  - destruct Ht as [->|[r ->]]; reflexivity.
  - destruct Hn as [Hx Hn]. cbn [c_str].
    destruct (Ascii.eqb_spec x NUL); [contradiction|].
    now rewrite IH.
Qed.

Lemma length_bytes (s : string) :
  List.length (list_ascii_of_string s) = String.length s.
Proof. induction s; cbn; auto. Qed.

Lemma command_text_nul (name : string) (rest : list ascii) (s r : Z) :
  nul_free name -> (String.length name <= 127)%nat ->
  command_text (mkFrame s (list_ascii_of_string name ++ NUL :: rest) r) = name.
Proof.
  intros Hn Hl. rewrite command_text_cut. cbn [DATA].
  rewrite firstn_app, length_bytes.
  rewrite firstn_all2 by (rewrite length_bytes; lia).
  apply c_str_prefix; [exact Hn|].
  destruct (127 - String.length name)%nat; [now left | right; eexists; reflexivity].
Qed.

Lemma command_text_whole (name : string) (s r : Z) :
  nul_free name -> (String.length name <= 127)%nat ->
  command_text (mkFrame s (list_ascii_of_string name) r) = name.
Proof.
  intros Hn Hl. rewrite command_text_cut. cbn [DATA].
  rewrite firstn_all2 by (rewrite length_bytes; lia).
  rewrite <- (app_nil_r (list_ascii_of_string name)).
  apply c_str_prefix; [exact Hn | now left].
Qed.

(** A payload is read up to its first NUL byte: a text of at most 127
    bytes followed by a NUL and by anything else is handled exactly as the
    text alone. *)
Theorem payload_ends_at_nul (name : string) (rest : list ascii) (s r r' : Z)
    (st : state) :
  nul_free name -> (String.length name <= 127)%nat ->
  exec (on_receive env fmt_f2
          (mkFrame s (list_ascii_of_string name ++ NUL :: rest) r)) st =
  exec (on_receive env fmt_f2 (mkFrame s (list_ascii_of_string name) r')) st.
Proof.
  intros Hn Hl. rewrite !on_receive_exec. unfold prints. cbn [SENDERID].
  now rewrite command_text_nul, command_text_whole.
Qed.

End Facts.

(** Surroundings in which nothing happens, and a rendering of [%.2f] that
    always gives the same text, to run the sketch on. *)
Definition quiet : Z -> inputs :=
  fun _ => mkInputs (fun _ => HIGH) (fun _ => 0) 0 0.

Definition two_places : F32.float -> string := fun _ => "0.00".

(** A state 60 s after a telemetry sent 1 s before [millis] overflows. *)
Definition overflowed : state := mkState [] 4294966296 4295026296.

Lemma periodic_telemetry_by_elapsed_witness :
  trace (exec (loop quiet two_places None) overflowed) =
    trace overflowed ++ [telemetry_event quiet two_places overflowed; Delay 100] /\
  lastTelemetryMs (exec (loop quiet two_places None) overflowed)
  = to_uint32 (clock overflowed).
Proof.
  apply (periodic_telemetry_by_elapsed quiet two_places overflowed 4294966296).
  - reflexivity.
  - cbn. lia.
Defined.

Lemma payload_ends_at_nul_witness :
  exec (on_receive quiet two_places
          (mkFrame 10 (list_ascii_of_string "OPEN" ++ NUL :: ["x"%char]) 0)) boot =
  exec (on_receive quiet two_places (mkFrame 10 (list_ascii_of_string "OPEN") 0))
    boot.
Proof.
  apply (payload_ends_at_nul quiet two_places "OPEN" ["x"%char] 10 0 0 boot).
  - cbn. repeat split; discriminate.
  - cbn. lia.
Defined.

End GateRunFacts.

(** ** The analog readings

    The converter gives one of 1024 readings; voltage, percentage and the
    charging flag are tabulated over them. *)

Module ReadingFacts.
Import F32 F32Facts GateSpec Gate.
Local Open Scope list_scope.

(** Strict comparison of two positive finite values. *)
Lemma ltb_pos (m1 m2 : positive) (e1 e2 : Z) :
  ltb (S754_finite false m1 e1) (S754_finite false m2 e2) = true <->
  e1 < e2 \/ (e1 = e2 /\ Zpos m1 < Zpos m2).
Proof.
  unfold ltb, SFltb, SFcompare.
  destruct (Z.compare_spec e1 e2).
  - change (PosDef.Pos.compare_cont Eq m1 m2) with (Pos.compare m1 m2).
    destruct (Pos.compare_spec m1 m2); split; intros; try discriminate;
      try reflexivity; lia.
  - split; intros; [lia | reflexivity].
  - split; intros; [discriminate | lia].
Qed.

(** Positions compare as the values at them. *)
Lemma ltb_unord (a b : Z) :
  0 <= a -> 0 <= b -> ltb (unord a) (unord b) = (a <? b).
Proof.
  intros Ha Hb. unfold unord.
  pose proof (Z.div_mod a 8388608 ltac:(lia)) as Da.
  pose proof (Z.div_mod b 8388608 ltac:(lia)) as Db.
  pose proof (Z.mod_pos_bound a 8388608 ltac:(lia)) as Ma.
  pose proof (Z.mod_pos_bound b 8388608 ltac:(lia)) as Mb.
  destruct (Z.ltb_spec a b) as [L|L].
  - apply ltb_pos. rewrite !Z2Pos.id by lia. lia.
  - destruct (ltb _ _) eqn:E; [|reflexivity].
    apply ltb_pos in E. rewrite !Z2Pos.id in E by lia. lia.
Qed.

Lemma ltb_zero_unord (a : Z) : ltb (S754_zero false) (unord a) = true.
Proof. reflexivity. Qed.

Lemma ltb_unord_zero (a : Z) : ltb (unord a) (S754_zero false) = false.
Proof. reflexivity. Qed.

(** The voltage of a reading and the voltage the charging test compares
    the solar voltage with, by their positions. *)
Definition volt_key (raw : Z) : Z := ord (battery_voltage_of raw).
Definition margin_key (raw : Z) : Z :=
  ord (add (battery_voltage_of raw) (lit 2 10)).

(** A step of a table of numbers, for its monotonicity. *)
Lemma steps_monotone (f : Z -> Z) (lo : Z) (n : nat) :
  all_from (fun r => f r <=? f (r + 1)) lo n = true ->
  forall a b, lo <= a -> a <= b -> b <= lo + Z.of_nat n -> f a <= f b.
Proof.
  intros H a b Ha Hab Hb.
  assert (G : forall k : nat, a + Z.of_nat k <= lo + Z.of_nat n ->
                              f a <= f (a + Z.of_nat k)).
  { induction k as [|k IH]; intros Hk.
    - rewrite Z.add_0_r. lia.
    - pose proof (all_from_spec _ _ _ H (a + Z.of_nat k) ltac:(lia)) as St.
      cbv beta in St. apply Z.leb_le in St.
      replace (a + Z.of_nat (S k)) with (a + Z.of_nat k + 1) by lia.
      specialize (IH ltac:(lia)). lia. }
  specialize (G (Z.to_nat (b - a))). rewrite Z2Nat.id in G by lia.
  replace (a + (b - a)) with b in G by lia. apply G. lia.
Qed.

(** A value that sits at its position. *)
Definition placed (v : float) : bool :=
  match v with
  | S754_finite false m e =>
      (Zpos m =? 8388608 + ord v mod 8388608) && (e =? ord v / 8388608 - 150)
      && (0 <=? ord v)
  | _ => false
  end.

Lemma placed_spec (v : float) :
  placed v = true -> v = unord (ord v) /\ 0 <= ord v.
Proof.
  destruct v as [s|s| |[] m e]; try discriminate.
  unfold placed. rewrite !andb_true_iff. intros [[H1 H2] H3].
  apply Z.eqb_eq in H1, H2. apply Z.leb_le in H3. split; [|exact H3].
  unfold unord. rewrite <- H1, <- H2. reflexivity.
Qed.

(** The row of reading [raw + 1] in the table of voltages. *)
Definition volt_row (raw : Z) : bool :=
  placed (battery_voltage_of (raw + 1)) && (volt_key raw <? volt_key (raw + 1)).

Lemma volt_rows : all_from volt_row 0 1023 = true.
Proof. vm_compute. reflexivity. Qed.

Lemma volt_zero : battery_voltage_of 0 = S754_zero false.
Proof. vm_compute. reflexivity. Qed.

Lemma volt_placed (raw : Z) :
  1 <= raw <= 1023 ->
  battery_voltage_of raw = unord (volt_key raw) /\ 0 <= volt_key raw.
Proof.
  intros H.
  pose proof (all_from_spec _ _ _ volt_rows (raw - 1) ltac:(lia)) as R.
  unfold volt_row in R. replace (raw - 1 + 1) with raw in R by lia.
  apply andb_true_iff in R. destruct R as [P _].
  now apply placed_spec.
Qed.

Lemma volt_key_increasing (a b : Z) :
  0 <= a -> a < b -> b <= 1023 -> volt_key a < volt_key b.
Proof.
  intros Ha Hab Hb.
  assert (M : all_from (fun r => volt_key r <=? volt_key (r + 1)) 0 1023 = true).
  { vm_compute. reflexivity. }
  pose proof (steps_monotone volt_key 0 1023 M (a + 1) b
                ltac:(lia) ltac:(lia) ltac:(lia)) as L.
  pose proof (all_from_spec _ _ _ volt_rows a ltac:(lia)) as R.
  unfold volt_row in R. apply andb_true_iff in R. destruct R as [_ R].
  apply Z.ltb_lt in R. lia.
Qed.

Lemma volt_key_monotone (a b : Z) :
  0 <= a -> a <= b -> b <= 1023 -> volt_key a <= volt_key b.
Proof.
  intros Ha Hab Hb. destruct (Z.eq_dec a b) as [->|N]; [lia|].
  pose proof (volt_key_increasing a b Ha ltac:(lia) Hb). lia.
Qed.

Lemma voltage_lt (raw raw' : Z) :
  0 <= raw -> raw < raw' -> raw' <= 1023 ->
  ltb (battery_voltage_of raw) (battery_voltage_of raw') = true.
Proof.
  intros H0 H H1.
  destruct (volt_placed raw' ltac:(lia)) as [E' P'].
  destruct (Z.eq_dec raw 0) as [->|N].
  - rewrite volt_zero, E'. apply ltb_zero_unord.
  - destruct (volt_placed raw ltac:(lia)) as [E P].
    rewrite E, E', ltb_unord by assumption.
    apply Z.ltb_lt. now apply volt_key_increasing.
Qed.

(** The percentage of a reading, [-1] standing for none. *)
Definition pct_of (raw : Z) : Z :=
  match batteryPctFromVoltage (battery_voltage_of raw) with
  | Some p => p
  | None => -1
  end.

Lemma pct_of_steps : all_from (fun r => pct_of r <=? pct_of (r + 1)) 0 1023 = true.
Proof. vm_compute. reflexivity. Qed.

Lemma pct_of_marks :
  pct_of 0 = 0 /\ pct_of 584 = 0 /\ pct_of 585 = 1 /\
  pct_of 689 = 99 /\ pct_of 690 = 100 /\ pct_of 1023 = 100.
Proof. vm_compute. repeat split. Qed.

Lemma pct_of_some (raw : Z) :
  0 <= pct_of raw -> batteryPctFromVoltage (battery_voltage_of raw) = Some (pct_of raw).
Proof.
  unfold pct_of. destruct (batteryPctFromVoltage _); [reflexivity | lia].
Qed.

(** The row of the battery reading [raw] in the table of the charging
    test: the solar reading must be 11 steps above it. *)
Definition margin_row (raw : Z) : bool :=
  placed (add (battery_voltage_of raw) (lit 2 10)) &&
  (volt_key (Z.min (raw + 10) 1023) <=? margin_key raw) &&
  ((1023 <? raw + 11) || (margin_key raw <? volt_key (raw + 11))).

Lemma margin_rows : all_from margin_row 0 1024 = true.
Proof. vm_compute. reflexivity. Qed.

Lemma charging_of_readings (rb rs : Z) :
  0 <= rb <= 1023 -> 0 <= rs <= 1023 ->
  ltb (add (battery_voltage_of rb) (lit 2 10)) (battery_voltage_of rs)
  = (rb + 11 <=? rs).
Proof.
  intros Hb Hs.
  pose proof (all_from_spec _ _ _ margin_rows rb ltac:(lia)) as R.
  unfold margin_row in R. rewrite !andb_true_iff in R.
  destruct R as [[P L] U]. apply placed_spec in P. destruct P as [E P].
  fold (margin_key rb) in E, P. apply Z.leb_le in L. rewrite E.
  destruct (Z.eq_dec rs 0) as [->|N].
  - rewrite volt_zero, ltb_unord_zero. symmetry. apply Z.leb_gt. lia.
  - destruct (volt_placed rs ltac:(lia)) as [Es Ps].
    rewrite Es, ltb_unord by assumption.
    destruct (Z.leb_spec (rb + 11) rs) as [G|G].
    + apply Z.ltb_lt.
      apply orb_true_iff in U. destruct U as [U|U]; apply Z.ltb_lt in U; [lia|].
      pose proof (volt_key_monotone (rb + 11) rs ltac:(lia) G ltac:(lia)). lia.
    + apply Z.ltb_ge.
      pose proof (volt_key_monotone rs (Z.min (rb + 10) 1023)
                    ltac:(lia) ltac:(lia) ltac:(lia)). lia.
Qed.

Section Facts.
Variable env : Z -> inputs.

(** The raw readings of the two analog pins at the clock of a state. *)
Definition batt_raw (st : state) : Z := analogRead (env (clock st)) PIN_BATT_ADC.
Definition solar_raw (st : state) : Z := analogRead (env (clock st)) PIN_SOLAR_ADC.

Lemma battery_voltage_value (st : state) :
  fst (readBatteryVoltage env st) = battery_voltage_of (batt_raw st).
Proof. reflexivity. Qed.

Lemma solar_voltage_value (st : state) :
  fst (readSolarVoltage env st) = battery_voltage_of (solar_raw st).
Proof. reflexivity. Qed.

Lemma snapshot_pct (st : state) :
  t_battery_pct (fst (snapshot env st))
  = batteryPctFromVoltage (battery_voltage_of (batt_raw st)).
Proof. reflexivity. Qed.

Lemma snapshot_charging (st : state) :
  t_charging (fst (snapshot env st))
  = ltb (add (battery_voltage_of (batt_raw st)) (lit 2 10))
        (battery_voltage_of (solar_raw st)).
Proof. reflexivity. Qed.

(** The voltage [readBatteryVoltage] computes grows with the reading of the
    converter: a larger reading gives a strictly larger voltage, so no two
    of the 1024 readings give the same one. *)
Theorem voltage_increasing (st st' : state) :
  0 <= batt_raw st -> batt_raw st < batt_raw st' -> batt_raw st' <= 1023 ->
  ltb (fst (readBatteryVoltage env st)) (fst (readBatteryVoltage env st')) = true.
Proof.
  intros H0 H H1. rewrite !battery_voltage_value. now apply voltage_lt.
Qed.

(** In steps of the converter: the snapshot reports 0 percent up to the
    reading 584 and 100 percent from the reading 690 on, a percentage
    between the two in between, and never a smaller percentage for a larger
    reading. *)
Theorem battery_pct_of_reading (st st' : state) :
  0 <= batt_raw st -> batt_raw st <= batt_raw st' -> batt_raw st' <= 1023 ->
  exists p p',
    t_battery_pct (fst (snapshot env st)) = Some p /\
    t_battery_pct (fst (snapshot env st')) = Some p' /\
    0 <= p /\ p <= p' /\ p' <= 100 /\
    (p = 0 <-> batt_raw st <= 584) /\ (p = 100 <-> 690 <= batt_raw st).
Proof.
  intros H0 H H1. rewrite !snapshot_pct.
  set (a := batt_raw st) in *. set (b := batt_raw st') in *.
  destruct pct_of_marks as (M0 & M1 & M2 & M3 & M4 & M5).
  assert (Mo : forall x y, 0 <= x -> x <= y -> y <= 1023 -> pct_of x <= pct_of y).
  { intros x y Hx Hxy Hy.
    apply (steps_monotone pct_of 0 1023 pct_of_steps); lia. }
  pose proof (Mo 0 a ltac:(lia) ltac:(lia) ltac:(lia)).
  pose proof (Mo a b ltac:(lia) ltac:(lia) ltac:(lia)).
  pose proof (Mo b 1023 ltac:(lia) ltac:(lia) ltac:(lia)).
  exists (pct_of a), (pct_of b).
  rewrite !pct_of_some by lia.
  repeat split; try lia.
  - intros E. destruct (Z.le_gt_cases a 584) as [L|G]; [exact L|].
    pose proof (Mo 585 a ltac:(lia) ltac:(lia) ltac:(lia)). lia.
  - intros L. pose proof (Mo a 584 ltac:(lia) ltac:(lia) ltac:(lia)). lia.
  - intros E. destruct (Z.le_gt_cases 690 a) as [L|G]; [exact L|].
    pose proof (Mo a 689 ltac:(lia) ltac:(lia) ltac:(lia)). lia.
  - intros L. pose proof (Mo 690 a ltac:(lia) ltac:(lia) ltac:(lia)). lia.
Qed.

(** In steps of the converter: the snapshot reports charging exactly when
    the solar reading is at least 11 steps above the battery reading. *)
Theorem charging_by_readings (st : state) :
  0 <= batt_raw st <= 1023 -> 0 <= solar_raw st <= 1023 ->
  t_charging (fst (snapshot env st)) = (batt_raw st + 11 <=? solar_raw st).
Proof.
  intros Hb Hs. rewrite snapshot_charging. now apply charging_of_readings.
Qed.

End Facts.

(** Surroundings in which both analog pins read the clock. *)
Definition ramp : Z -> inputs :=
  fun t => mkInputs (fun _ => HIGH) (fun _ => t) 0 0.

Lemma voltage_increasing_witness :
  ltb (fst (readBatteryVoltage ramp (mkState [] 0 600)))
      (fst (readBatteryVoltage ramp (mkState [] 0 700))) = true.
Proof.
  apply (voltage_increasing ramp (mkState [] 0 600) (mkState [] 0 700));
    cbn; lia.
Defined.

Lemma battery_pct_of_reading_witness :
  exists p p',
    t_battery_pct (fst (snapshot ramp (mkState [] 0 600))) = Some p /\
    t_battery_pct (fst (snapshot ramp (mkState [] 0 700))) = Some p' /\
    0 <= p /\ p <= p' /\ p' <= 100 /\
    (p = 0 <-> batt_raw ramp (mkState [] 0 600) <= 584) /\
    (p = 100 <-> 690 <= batt_raw ramp (mkState [] 0 600)).
Proof.
  apply (battery_pct_of_reading ramp (mkState [] 0 600) (mkState [] 0 700));
    cbn; lia.
Defined.

Lemma charging_by_readings_witness :
  t_charging (fst (snapshot ramp (mkState [] 0 600)))
  = (batt_raw ramp (mkState [] 0 600) + 11 <=? solar_raw ramp (mkState [] 0 600)).
Proof.
  apply (charging_by_readings ramp (mkState [] 0 600)); cbn; lia.
Defined.

Lemma measured_pct_exact_witness :
  batteryPctFromVoltage (fst (readBatteryVoltage ramp (mkState [] 0 600)))
  = Some (exact_pct (to_Q (fst (readBatteryVoltage ramp (mkState [] 0 600))))).
Proof.
  apply (BatteryFacts.measured_pct_exact ramp (mkState [] 0 600)); cbn; lia.
Defined.

End ReadingFacts.

(** ** The gateway over a run

    The events of a whole run, written out: the serial bytes form one
    stream of lines, and each complete line is forwarded on its own. *)

Module GatewayRunFacts.
Import CStr CStrFacts Gateway GatewaySpec GatewayFacts.
Local Open Scope list_scope.

Section Facts.
Variable send_ok : nat -> bool.
Variable RH_RF69_MAX_MESSAGE_LEN : Z.

Local Abbreviation forwardSerialToRadio := (Gateway.forwardSerialToRadio send_ok).
Local Abbreviation serial_byte := (Gateway.serial_byte send_ok).
Local Abbreviation loop := (Gateway.loop send_ok RH_RF69_MAX_MESSAGE_LEN).
Local Abbreviation run := (Gateway.run send_ok RH_RF69_MAX_MESSAGE_LEN).

(** What [forwardSerialToRadio] does with a line when [k] frames have been
    sent before. *)
Definition forward_events (line : string) (k : nat) : list event :=
  if negb (strncmp line "TO:" 3 =? 0) then
    [SerialWrite ERR_UNKNOWN_OPEN; SerialWrite line; SerialWrite CLOSE_STR;
     SerialWrite CRLF]
  else
    let p := advance line 3 in
    let dest := atoi p in
    match strchr p ":"%char with
    | None => [SerialWrite ERR_BAD_FORMAT; SerialWrite CRLF]
    | Some colon =>
        let payload := advance colon 1 in
        let len := trim_len payload (String.length payload) in
        if Nat.eqb len 0 then [SerialWrite ERR_EMPTY_PAYLOAD; SerialWrite CRLF]
        else
          let len := if Nat.ltb (192 - 1) len then (192 - 1)%nat else len in
          RadioSend (to_uint8 dest) (take len payload) (Z.of_nat len)
          :: outcome (send_ok k) dest payload
    end.

Lemma forward_exec (line : string) (tr : list event) (b : list ascii) (p : nat) :
  exec (forwardSerialToRadio line) (mkState tr b p) =
  mkState (tr ++ forward_events line (List.length (radio_sends tr))) b p.
Proof.
  unfold Gateway.forwardSerialToRadio, forward_events.
  destruct (negb (strncmp line "TO:" 3 =? 0)).
  { unfold exec, Serial_print, Serial_println, emit, modify, bind. cbn.
    now rewrite <- !app_assoc. }
  cbv zeta. destruct (strchr (advance line 3) ":"%char) as [colon|].
  2:{ unfold exec, Serial_println, emit, modify, bind. cbn.
      now rewrite <- !app_assoc. }
  destruct (Nat.eqb _ 0).
  { unfold exec, Serial_println, emit, modify, bind. cbn.
    now rewrite <- !app_assoc. }
  unfold outcome.
  destruct (send_ok (List.length (radio_sends tr))) eqn:K;
    unfold exec, sendWithRetry, Serial_print, Serial_println, emit, modify,
      bind, gets, ret; cbn -[radio_sends]; rewrite K; cbn -[radio_sends];
    now rewrite <- !app_assoc.
Qed.

(** A line makes at most one frame. *)
Lemma forward_sends (line : string) (k : nat) :
  (List.length (radio_sends (forward_events line k)) <= 1)%nat.
Proof.
  unfold forward_events.
  destruct (negb _); [cbn; lia|]. cbv zeta.
  destruct (strchr _ _); [|cbn; lia].
  destruct (Nat.eqb _ 0); [cbn; lia|].
  unfold outcome. destruct (send_ok k); cbn; lia.
Qed.

(** The events of the lines [ls], handed over one after the other when [k]
    frames have been sent before. *)
Fixpoint lines_events (ls : list string) (k : nat) : list event :=
  match ls with
  | [] => []
  | l :: r =>
      let evs := forward_events l k in
      evs ++ lines_events r (k + List.length (radio_sends evs))
  end.

Lemma length_sends_app (a b : list event) :
  List.length (radio_sends (a ++ b))
  = (List.length (radio_sends a) + List.length (radio_sends b))%nat.
Proof. unfold radio_sends. now rewrite filter_app, length_app. Qed.

Lemma lines_events_app (a b : list string) (k : nat) :
  lines_events (a ++ b) k =
  lines_events a k
  ++ lines_events b (k + List.length (radio_sends (lines_events a k))).
Proof.
  revert k. induction a as [|l a IH]; intros k.
  - cbn. now rewrite Nat.add_0_r.
  - cbn [app lines_events]. cbv zeta. rewrite IH, <- app_assoc.
    now rewrite length_sends_app, Nat.add_assoc.
Qed.

Lemma lines_sends (ls : list string) (k : nat) :
  (List.length (radio_sends (lines_events ls k)) <= List.length ls)%nat.
Proof.
  revert k. induction ls as [|l ls IH]; intros k; [cbn; lia|].
  cbn [lines_events List.length]. cbv zeta. rewrite length_sends_app.
  pose proof (forward_sends l k).
  specialize (IH (k + List.length (radio_sends (forward_events l k)))%nat). lia.
Qed.

(** The line buffer after the bytes [avail]. *)
Fixpoint buffered (avail : list ascii) (buf : list ascii) (pos : nat)
  : list ascii * nat :=
  match avail with
  | [] => (buf, pos)
  | c :: r =>
      let '(buf', pos', _) := buffer_byte c buf pos in buffered r buf' pos'
  end.

Lemma delivered_app (a b : list ascii) (buf : list ascii) (pos : nat) :
  delivered (a ++ b) buf pos =
  delivered a buf pos
  ++ delivered b (fst (buffered a buf pos)) (snd (buffered a buf pos)).
Proof.
  revert buf pos. induction a as [|c a IH]; intros buf pos; [reflexivity|].
  cbn [app delivered buffered].
  destruct (buffer_byte c buf pos) as [[buf' pos'] [l|]]; rewrite IH; reflexivity.
Qed.

Lemma buffered_app (a b : list ascii) (buf : list ascii) (pos : nat) :
  buffered (a ++ b) buf pos =
  buffered b (fst (buffered a buf pos)) (snd (buffered a buf pos)).
Proof.
  revert buf pos. induction a as [|c a IH]; intros buf pos; [reflexivity|].
  cbn [app buffered].
  destruct (buffer_byte c buf pos) as [[buf' pos'] l]. apply IH.
Qed.

(** The [while] loop over the bytes at hand: the lines they complete are
    handed over in order, and the buffer keeps the rest. *)
Lemma pump_exec (avail : list ascii) (tr : list event) (buf : list ascii)
    (pos : nat) :
  exec (for_each serial_byte avail) (mkState tr buf pos) =
  mkState (tr ++ lines_events (delivered avail buf pos)
                   (List.length (radio_sends tr)))
          (fst (buffered avail buf pos)) (snd (buffered avail buf pos)).
Proof.
  revert tr buf pos. induction avail as [|c r IH]; intros tr buf pos.
  - cbn. now rewrite app_nil_r.
  - cbn [for_each delivered buffered]. rewrite exec_seq.
    destruct (buffer_byte c buf pos) as [[buf' pos'] line] eqn:B.
    assert (S1 : exec (serial_byte c) (mkState tr buf pos) =
                 match line with
                 | Some l => exec (forwardSerialToRadio l) (mkState tr buf' pos')
                 | None => mkState tr buf' pos'
                 end).
    { unfold Gateway.serial_byte, exec, bind, gets, modify. cbn. rewrite B.
      destruct line; reflexivity. }
    rewrite S1. destruct line as [l|].
    + rewrite forward_exec, IH. cbn [lines_events]. cbv zeta.
      now rewrite length_sends_app, <- app_assoc.
    + now rewrite IH.
Qed.

Definition rx_events (rx : option frame) : list event :=
  match rx with
  | Some f => frame_events RH_RF69_MAX_MESSAGE_LEN f
  | None => []
  end.

Lemma rx_silent (rx : option frame) : radio_sends (rx_events rx) = [].
Proof.
  destruct rx as [f|]; [|reflexivity].
  unfold rx_events, frame_events. cbv zeta.
  rewrite !radio_sends_app, radio_sends_escaped. reflexivity.
Qed.

(** The events of one pass of [loop]. *)
Definition pass_events (rx : option frame) (avail : list ascii) (k : nat)
    (buf : list ascii) (pos : nat) : list event :=
  rx_events rx ++ lines_events (delivered avail buf pos) k ++ [Delay 10].

Lemma loop_exec (rx : option frame) (avail : list ascii) (tr : list event)
    (buf : list ascii) (pos : nat) :
  exec (loop rx avail) (mkState tr buf pos) =
  mkState (tr ++ pass_events rx avail (List.length (radio_sends tr)) buf pos)
          (fst (buffered avail buf pos)) (snd (buffered avail buf pos)).
Proof.
  unfold Gateway.loop, pass_events. rewrite !exec_seq.
  assert (R : exec (match rx with
                    | Some f => on_receive RH_RF69_MAX_MESSAGE_LEN f
                    | None => ret tt
                    end) (mkState tr buf pos)
              = mkState (tr ++ rx_events rx) buf pos).
  { destruct rx as [f|].
    - now rewrite frame_events_exec.
    - cbn. now rewrite app_nil_r. }
  rewrite R, pump_exec, length_sends_app, rx_silent. cbn [List.length].
  rewrite Nat.add_0_r.
  unfold exec, delay, emit, modify. cbn. now rewrite <- !app_assoc.
Qed.

Lemma pass_sends (rx : option frame) (avail : list ascii) (k : nat)
    (buf : list ascii) (pos : nat) :
  radio_sends (pass_events rx avail k buf pos)
  = radio_sends (lines_events (delivered avail buf pos) k).
Proof.
  unfold pass_events. rewrite !radio_sends_app, rx_silent. cbn.
  now rewrite app_nil_r.
Qed.

(** The events of the passes [passes], one after the other. *)
Fixpoint passes_events (passes : list (option frame * list ascii)) (k : nat)
    (buf : list ascii) (pos : nat) : list event :=
  match passes with
  | [] => []
  | p :: r =>
      let evs := pass_events (fst p) (snd p) k buf pos in
      evs ++ passes_events r (k + List.length (radio_sends evs))
               (fst (buffered (snd p) buf pos)) (snd (buffered (snd p) buf pos))
  end.

(** All the bytes the serial port delivers during the passes. *)
Definition stream (passes : list (option frame * list ascii)) : list ascii :=
  List.concat (map snd passes).

Lemma loops_exec (passes : list (option frame * list ascii)) (tr : list event)
    (buf : list ascii) (pos : nat) :
  exec (loops send_ok RH_RF69_MAX_MESSAGE_LEN passes) (mkState tr buf pos) =
  mkState (tr ++ passes_events passes (List.length (radio_sends tr)) buf pos)
          (fst (buffered (stream passes) buf pos))
          (snd (buffered (stream passes) buf pos)).
Proof.
  unfold loops, stream. revert tr buf pos.
  induction passes as [|p r IH]; intros tr buf pos.
  - cbn. now rewrite app_nil_r.
  - cbn [for_each map List.concat passes_events]. cbv zeta.
    rewrite exec_seq, loop_exec, IH, length_sends_app, buffered_app.
    now rewrite <- app_assoc.
Qed.

Lemma passes_sends (passes : list (option frame * list ascii)) (k : nat)
    (buf : list ascii) (pos : nat) :
  radio_sends (passes_events passes k buf pos)
  = radio_sends (lines_events (delivered (stream passes) buf pos) k).
Proof.
  unfold stream. revert k buf pos.
  induction passes as [|p r IH]; intros k buf pos; [reflexivity|].
  cbn [map List.concat passes_events]. cbv zeta.
  rewrite delivered_app, lines_events_app, !radio_sends_app, IH, pass_sends.
  reflexivity.
Qed.

Lemma setup_silent (radio_ok : bool) : radio_sends (setup_events radio_ok) = [].
Proof. destruct radio_ok; reflexivity. Qed.

Lemma run_exec (radio_ok : bool) (passes : list (option frame * list ascii)) :
  run radio_ok passes =
  mkState (setup_events radio_ok
           ++ passes_events passes 0 (repeat NUL SERIAL_BUF_LEN) 0)
          (fst (buffered (stream passes) (repeat NUL SERIAL_BUF_LEN) 0))
          (snd (buffered (stream passes) (repeat NUL SERIAL_BUF_LEN) 0)).
Proof.
  unfold Gateway.run. rewrite exec_seq, setup_exec. unfold extend, boot.
  cbn [trace serialBuf serialPos app].
  rewrite loops_exec, setup_silent. reflexivity.
Qed.

Lemma frame_serial_out (f : frame) :
  serial_out (frame_events RH_RF69_MAX_MESSAGE_LEN f) =
  (SRC_OPEN ++ dec (SENDERID f) ++ RSSI_OPEN ++ dec (RSSI f) ++ PAYLOAD_OPEN
   ++ escape (firstn (Z.to_nat (Z.min (DATALEN f) RH_RF69_MAX_MESSAGE_LEN))
                (DATA f))
   ++ CLOSE_STR ++ CRLF)%string.
Proof.
  unfold frame_events. cbv zeta.
  rewrite !serial_out_app, serial_out_escaped.
  cbn [serial_out]. now rewrite ?append_nil_r, ?append_assoc.
Qed.

(** *** The serial bytes as one stream *)

(** The frames the gateway sends depend on the serial bytes as one stream:
    how the bytes are spread over the passes of [loop], and which frames
    arrive in between, makes no difference to them. *)
Theorem sends_follow_the_stream (radio_ok : bool)
    (passes : list (option frame * list ascii)) :
  radio_sends (trace (run radio_ok passes)) =
  radio_sends (trace (run radio_ok [(None, stream passes)])).
Proof.
  rewrite !run_exec. cbn [trace].
  rewrite !radio_sends_app, !passes_sends.
  unfold stream at 2. cbn [map snd List.concat]. now rewrite app_nil_r.
Qed.

Lemma forward_at_run_time (line : string) (k : nat) :
  forallb at_run_time (forward_events line k) = true.
Proof.
  unfold forward_events.
  destruct (negb _); [reflexivity|]. cbv zeta.
  destruct (strchr _ _); [|reflexivity].
  destruct (Nat.eqb _ 0); [reflexivity|].
  unfold outcome. destruct (send_ok k); reflexivity.
Qed.

Lemma lines_at_run_time (ls : list string) (k : nat) :
  forallb at_run_time (lines_events ls k) = true.
Proof.
  revert k. induction ls as [|l ls IH]; intros k; [reflexivity|].
  cbn [lines_events]. cbv zeta.
  now rewrite forallb_app, forward_at_run_time, IH.
Qed.

Lemma rx_at_run_time (rx : option frame) :
  forallb at_run_time (rx_events rx) = true.
Proof.
  destruct rx as [f|]; [|reflexivity].
  unfold rx_events, frame_events. cbv zeta.
  rewrite !forallb_app. cbn [forallb at_run_time andb].
  rewrite andb_true_r.
  set (payload := firstn _ _). clearbody payload.
  induction payload as [|c r IH]; [reflexivity|].
  cbn [escaped_events flat_map]. fold (escaped_events r).
  rewrite forallb_app, IH.
  now destruct (Ascii.eqb c QUOTE || Ascii.eqb c BACKSLASH).
Qed.

Lemma passes_at_run_time (passes : list (option frame * list ascii)) (k : nat)
    (buf : list ascii) (pos : nat) :
  forallb at_run_time (passes_events passes k buf pos) = true.
Proof.
  revert k buf pos. induction passes as [|p r IH]; intros k buf pos;
    [reflexivity|].
  cbn [passes_events]. cbv zeta. unfold pass_events at 1.
  now rewrite !forallb_app, rx_at_run_time, lines_at_run_time, IH.
Qed.

(** The outcome of [rf69.initialize] decides what [setup] configures and
    prints, and nothing else: after a failed initialisation the gateway
    goes on exactly as after a successful one, forwarding lines to the
    radio with high power, the key and auto power left unset.  Serial port
    and radio are configured in [setup] only. *)
Theorem gateway_init_outcome_ignored
    (passes : list (option frame * list ascii)) :
  exists rest,
    forallb at_run_time rest = true /\
    forall radio_ok,
      trace (run radio_ok passes) = setup_events radio_ok ++ rest.
Proof.
  exists (passes_events passes 0 (repeat NUL SERIAL_BUF_LEN) 0).
  split; [apply passes_at_run_time|].
  intros radio_ok. now rewrite run_exec.
Qed.

Lemma delivered_count (avail : list ascii) (buf : list ascii) (pos : nat) :
  (List.length (delivered avail buf pos) <= count_occ ascii_dec avail LF)%nat.
Proof.
  revert buf pos. induction avail as [|c r IH]; intros buf pos; [cbn; lia|].
  cbn [delivered count_occ]. unfold buffer_byte.
  destruct (Ascii.eqb_spec c CR) as [->|NC].
  { specialize (IH buf pos). destruct (ascii_dec CR LF); [discriminate|lia]. }
  destruct (Ascii.eqb_spec c LF) as [->|NL].
  - specialize (IH (store buf pos NUL) 0%nat).
    destruct (ascii_dec LF LF); [|contradiction].
    destruct (Nat.ltb 0 pos); cbn [List.length]; lia.
  - destruct (ascii_dec c LF); [contradiction|].
    destruct (Nat.ltb pos (SERIAL_BUF_LEN - 1)); apply IH.
Qed.

(** The gateway sends a frame only for a complete line: over a whole run it
    sends at most as many frames as it has received line feeds. *)
Theorem at_most_one_send_per_line (radio_ok : bool)
    (passes : list (option frame * list ascii)) :
  (List.length (radio_sends (trace (run radio_ok passes)))
   <= count_occ ascii_dec (stream passes) LF)%nat.
Proof.
  rewrite run_exec. cbn [trace].
  rewrite radio_sends_app, setup_silent, passes_sends. cbn [app].
  etransitivity; [apply lines_sends | apply delivered_count].
Qed.

(** *** The bounds of the line buffer *)

Lemma buffer_byte_bounds (c : ascii) (buf : list ascii) (pos : nat) :
  List.length buf = SERIAL_BUF_LEN -> (pos < SERIAL_BUF_LEN)%nat ->
  List.length (fst (fst (buffer_byte c buf pos))) = SERIAL_BUF_LEN /\
  (snd (fst (buffer_byte c buf pos)) < SERIAL_BUF_LEN)%nat.
Proof.
  intros L P. unfold buffer_byte.
  destruct (Ascii.eqb c CR); [now split|].
  destruct (Ascii.eqb c LF).
  { cbn [fst snd]. rewrite store_length. split; [exact L|].
    unfold SERIAL_BUF_LEN. lia. }
  destruct (Nat.ltb_spec pos (SERIAL_BUF_LEN - 1)); cbn [fst snd].
  - rewrite store_length. split; [exact L|]. unfold SERIAL_BUF_LEN in *. lia.
  - split; [exact L|]. unfold SERIAL_BUF_LEN. lia.
Qed.

Lemma buffered_bounds (avail : list ascii) (buf : list ascii) (pos : nat) :
  List.length buf = SERIAL_BUF_LEN -> (pos < SERIAL_BUF_LEN)%nat ->
  List.length (fst (buffered avail buf pos)) = SERIAL_BUF_LEN /\
  (snd (buffered avail buf pos) < SERIAL_BUF_LEN)%nat.
Proof.
  revert buf pos. induction avail as [|c r IH]; intros buf pos L P.
  - now split.
  - cbn [buffered]. pose proof (buffer_byte_bounds c buf pos L P) as B.
    destruct (buffer_byte c buf pos) as [[buf' pos'] l]. cbn [fst snd] in B.
    now apply IH.
Qed.

(** Whatever arrives, [serialBuf] keeps its 512 bytes and [serialPos] stays
    below 512: the writes [serialBuf[serialPos++] = c] and
    [serialBuf[serialPos] = 0] always land inside the array. *)
Theorem line_buffer_in_bounds (radio_ok : bool)
    (passes : list (option frame * list ascii)) :
  List.length (serialBuf (run radio_ok passes)) = SERIAL_BUF_LEN /\
  (serialPos (run radio_ok passes) < SERIAL_BUF_LEN)%nat.
Proof.
  rewrite run_exec. cbn [serialBuf serialPos].
  apply buffered_bounds.
  - apply repeat_length.
  - unfold SERIAL_BUF_LEN. lia.
Qed.

(** *** Carriage returns and empty lines *)

Definition not_cr (c : ascii) : bool := negb (Ascii.eqb c CR).

Lemma delivered_no_cr (avail : list ascii) (buf : list ascii) (pos : nat) :
  delivered (filter not_cr avail) buf pos = delivered avail buf pos /\
  buffered (filter not_cr avail) buf pos = buffered avail buf pos.
Proof.
  revert buf pos. induction avail as [|c r IH]; intros buf pos; [now split|].
  cbn [filter]. assert (N : not_cr c = negb (Ascii.eqb c CR)) by reflexivity.
  rewrite N. destruct (Ascii.eqb c CR) eqn:E; cbn [negb].
  - cbn [delivered buffered]. unfold buffer_byte. rewrite E. apply IH.
  - cbn [delivered buffered].
    destruct (buffer_byte c buf pos) as [[buf' pos'] [l|]];
      destruct (IH buf' pos') as [D B]; now rewrite D, B.
Qed.

(** Carriage returns are dropped wherever they stand, at the end of a line
    or inside it: a pass of [loop] over some bytes is the pass over the same
    bytes without them. *)
Theorem carriage_returns_dropped (rx : option frame) (avail : list ascii)
    (st : state) :
  exec (loop rx avail) st = exec (loop rx (filter not_cr avail)) st.
Proof.
  destruct st as [tr buf pos]. rewrite !loop_exec. unfold pass_events.
  destruct (delivered_no_cr avail buf pos) as [D B]. now rewrite D, B.
Qed.

Lemma blank_delivered (avail : list ascii) (buf : list ascii) :
  forallb line_end avail = true ->
  delivered avail buf 0 = [] /\ snd (buffered avail buf 0) = 0%nat.
Proof.
  revert buf. induction avail as [|c r IH]; intros buf H; [now split|].
  cbn [forallb] in H. apply andb_true_iff in H. destruct H as [Hc Hr].
  cbn [delivered buffered]. unfold buffer_byte.
  destruct (Ascii.eqb c CR) eqn:C; [now apply IH|].
  unfold line_end in Hc. rewrite C, orb_false_r in Hc. rewrite Hc.
  cbn [Nat.ltb Nat.leb]. now apply IH.
Qed.

(** Empty lines are skipped: line ends arriving while the buffer is empty
    make the gateway neither write nor send, and leave the buffer empty. *)
Theorem empty_lines_skipped (avail : list ascii) (st : state) :
  serialPos st = 0%nat -> forallb line_end avail = true ->
  trace (exec (loop None avail) st) = trace st ++ [Delay 10] /\
  serialPos (exec (loop None avail) st) = 0%nat.
Proof.
  destruct st as [tr buf pos]. cbn [serialPos trace]. intros -> H.
  rewrite loop_exec. cbn [trace serialPos]. unfold pass_events.
  destruct (blank_delivered avail buf H) as [D B]. now rewrite D, B.
Qed.

(** *** Whole lines *)

Lemma store_split (buf : list ascii) (k : nat) (x : ascii) :
  (k < List.length buf)%nat ->
  store buf k x = firstn k buf ++ x :: skipn (S k) buf.
Proof.
  revert k. induction buf as [|y buf IH]; intros k H; cbn in H; [lia|].
  destruct k as [|k]; [reflexivity|].
  cbn [store firstn skipn app]. f_equal. apply IH. lia.
Qed.

Lemma firstn_store (buf : list ascii) (k : nat) (x : ascii) :
  (k < List.length buf)%nat ->
  firstn (S k) (store buf k x) = firstn k buf ++ [x].
Proof.
  revert k. induction buf as [|y buf IH]; intros k H; cbn in H; [lia|].
  destruct k as [|k]; [reflexivity|].
  cbn [store]. change (firstn (S (S k)) (y :: ?l)) with (y :: firstn (S k) l).
  cbn [firstn app]. f_equal. apply IH. lia.
Qed.

Lemma c_str_app_nul (l r : list ascii) : c_str (l ++ NUL :: r) = c_str l.
Proof.
  induction l as [|c l IH]; [reflexivity|].
  cbn [app c_str]. destruct (Ascii.eqb c NUL); [reflexivity | now rewrite IH].
Qed.

(** Plain bytes that fit are put into the buffer one after the other. *)
Lemma fill_buffer (head : list ascii) (buf : list ascii) (pos : nat) :
  forallb plain head = true ->
  (pos + List.length head <= SERIAL_BUF_LEN - 1)%nat ->
  List.length buf = SERIAL_BUF_LEN ->
  delivered head buf pos = [] /\
  List.length (fst (buffered head buf pos)) = SERIAL_BUF_LEN /\
  snd (buffered head buf pos) = (pos + List.length head)%nat /\
  firstn (pos + List.length head) (fst (buffered head buf pos))
  = firstn pos buf ++ head.
Proof.
  revert buf pos. induction head as [|c h IH]; intros buf pos Hp Hl Lb.
  - cbn. rewrite Nat.add_0_r, app_nil_r. auto.
  - cbn [forallb List.length] in Hp, Hl.
    apply andb_true_iff in Hp. destruct Hp as [Hc Hh].
    unfold plain in Hc. apply andb_true_iff in Hc. destruct Hc as [C1 C2].
    apply negb_true_iff in C1, C2.
    cbn [delivered buffered]. unfold buffer_byte. rewrite C1, C2.
    destruct (Nat.ltb_spec pos (SERIAL_BUF_LEN - 1)); [|lia].
    destruct (IH (store buf pos c) (S pos) Hh ltac:(lia)
                ltac:(now rewrite store_length)) as (D & L & P & F).
    cbn [List.length]. rewrite Nat.add_succ_r. cbn [Nat.add] in P, F.
    repeat split; try assumption.
    rewrite F, firstn_store by (unfold SERIAL_BUF_LEN in *; lia).
    now rewrite <- app_assoc.
Qed.

(** A line of 1 to 511 plain bytes, ended by a line feed, is handed over as
    the C string it holds. *)
Lemma line_delivered (l : list ascii) (buf : list ascii) :
  forallb plain l = true ->
  (1 <= List.length l <= SERIAL_BUF_LEN - 1)%nat ->
  List.length buf = SERIAL_BUF_LEN ->
  delivered (l ++ [LF]) buf 0 = [c_str l] /\
  List.length (fst (buffered (l ++ [LF]) buf 0)) = SERIAL_BUF_LEN /\
  snd (buffered (l ++ [LF]) buf 0) = 0%nat.
Proof.
  intros Hp Hl Lb.
  destruct (fill_buffer l buf 0 Hp ltac:(lia) Lb) as (D & L & P & F).
  cbn [Nat.add firstn app] in P, F.
  rewrite delivered_app, buffered_app, D, P.
  destruct (buffered l buf 0) as [buf' pos'] eqn:B. cbn [fst snd] in *.
  cbn [app delivered buffered]. unfold buffer_byte.
  change (Ascii.eqb LF CR) with false. change (Ascii.eqb LF LF) with true.
  cbv iota. cbn [fst snd].
  destruct (Nat.ltb_spec 0 (List.length l)); [|lia].
  rewrite store_length. repeat split; try assumption.
  rewrite store_split by (unfold SERIAL_BUF_LEN in *; lia).
  now rewrite F, c_str_app_nul.
Qed.

(** The bytes of some lines, each followed by a line feed. *)
Definition feed (ls : list (list ascii)) : list ascii :=
  List.concat (map (fun l => l ++ [LF]) ls).

(** A line the buffer can hold: 1 to 511 bytes, none of them a carriage
    return or a line feed. *)
Definition fits (l : list ascii) : Prop :=
  forallb plain l = true /\ (1 <= List.length l <= SERIAL_BUF_LEN - 1)%nat.

Lemma feed_delivered (ls : list (list ascii)) (buf : list ascii) :
  Forall fits ls -> List.length buf = SERIAL_BUF_LEN ->
  delivered (feed ls) buf 0 = map c_str ls.
Proof.
  intros H. revert buf. induction H as [|l ls [Hp Hl] _ IH]; intros buf Lb.
  - reflexivity.
  - unfold feed. cbn [map List.concat]. fold (feed ls).
    destruct (line_delivered l buf Hp Hl Lb) as (D & L & P).
    rewrite delivered_app, D, P. cbn [app]. f_equal. now apply IH.
Qed.

Lemma c_str_bytes (s : string) :
  nul_free s -> c_str (list_ascii_of_string s) = s.
Proof.
  induction s as [|c s IH]; [reflexivity|].
  intros [Hc Hs]. cbn [list_ascii_of_string c_str].
  destruct (Ascii.eqb_spec c NUL); [contradiction|]. now rewrite IH.
Qed.

(** Lines are handed over whole and in order: feeding the gateway, from an
    empty buffer position, the bytes of lines of 1 to 511 bytes that hold no
    NUL, carriage return or line feed, each followed by a line feed, is
    calling [forwardSerialToRadio] on each of the lines in turn, whatever
    the buffer held before. *)
Theorem lines_handed_over (ls : list string) (st : state) :
  Forall (fun l => nul_free l /\ fits (list_ascii_of_string l)) ls ->
  serialPos st = 0%nat -> List.length (serialBuf st) = SERIAL_BUF_LEN ->
  trace (exec (for_each serial_byte (feed (map list_ascii_of_string ls))) st) =
  trace (exec (for_each forwardSerialToRadio ls) st).
Proof.
  intros H P L. rewrite pump_delivers, P.
  assert (F : Forall fits (map list_ascii_of_string ls)).
  { apply Forall_map. eapply Forall_impl; [|exact H]. now intros l [_ F]. }
  assert (E : map c_str (map list_ascii_of_string ls) = ls).
  { rewrite map_map. rewrite <- (map_id ls) at 2. apply map_ext_Forall.
    eapply Forall_impl; [|exact H]. intros l [N _]. now apply c_str_bytes. }
  now rewrite (feed_delivered _ _ F L), E.
Qed.

(** A NUL byte ends the line early: of a line that fits, only the bytes
    before its first NUL reach [forwardSerialToRadio]. *)
Theorem line_ends_at_nul (head : string) (tail : list ascii) (st : state) :
  nul_free head ->
  fits (list_ascii_of_string head ++ NUL :: tail) ->
  serialPos st = 0%nat -> List.length (serialBuf st) = SERIAL_BUF_LEN ->
  trace (exec (for_each serial_byte
                 ((list_ascii_of_string head ++ NUL :: tail) ++ [LF])) st) =
  trace (exec (forwardSerialToRadio head) st).
Proof.
  intros N [Hp Hl] P L. rewrite pump_delivers, P.
  destruct (line_delivered _ (serialBuf st) Hp Hl L) as (D & _).
  rewrite D, c_str_app_nul, c_str_bytes by exact N.
  cbn [for_each]. rewrite exec_seq. reflexivity.
Qed.

(** *** The destination field *)

(** A destination field in which [atoi] finds no number: empty, or begun
    by a byte that is not white space, a sign or a digit. *)
Definition unnumbered (dest : string) : bool :=
  match dest with
  | EmptyString => true
  | String c _ =>
      negb (isspace c) && negb (Ascii.eqb c "-"%char)
      && negb (Ascii.eqb c "+"%char) && negb (isdigit c)
  end.

Lemma atoi_unnumbered (dest : string) : unnumbered dest = true -> atoi dest = 0.
Proof.
  destruct dest as [|c r]; [reflexivity|].
  unfold unnumbered. rewrite !andb_true_iff, !negb_true_iff.
  intros [[[S M] P] D]. unfold atoi. cbn [skip_spaces]. rewrite S, M, P.
  cbn [digits_value]. rewrite D. reflexivity.
Qed.

(** The destination is not checked: a line whose destination field holds
    no number is sent like any other, to node 0, and confirmed with 0. *)
Theorem unnumbered_destination_is_zero (dest body ends : string) (x : ascii)
    (st : state) :
  colon_free dest = true -> unnumbered dest = true ->
  line_end x = false -> all_chars line_end ends = true ->
  let kept := (body ++ String x "")%string in
  let payload := (kept ++ ends)%string in
  let ok := send_ok (List.length (radio_sends (trace st))) in
  exists evs,
    trace (exec (forwardSerialToRadio ("TO:" ++ dest ++ ":" ++ payload)) st)
      = trace st ++ evs /\
    radio_sends evs =
      [RadioSend 0 (take 191 kept) (Z.of_nat (Nat.min 191 (String.length kept)))] /\
    serial_out evs =
      (if ok
       then SENT_TO_OPEN ++ "0" ++ PAYLOAD_OPEN ++ payload ++ CLOSE_STR ++ CRLF
       else SENT_ERROR_OPEN ++ "0" ++ "}" ++ CRLF)%string.
Proof.
  intros Hd Hu Hx He kept payload ok.
  pose proof (forward_valid send_ok dest body ends x st Hd Hx He) as F.
  cbv zeta in F. fold kept payload ok in F.
  rewrite (atoi_unnumbered dest Hu) in F. rewrite F.
  eexists. split; [reflexivity|].
  unfold outcome. destruct ok;
    cbn [radio_sends filter is_radio_send serial_out];
    rewrite ?append_nil_r; auto.
Qed.

End Facts.

Lemma empty_lines_skipped_witness :
  trace (exec (Gateway.loop (fun _ => true) 61 None [CR; LF; LF]) boot)
    = trace boot ++ [Delay 10] /\
  serialPos (exec (Gateway.loop (fun _ => true) 61 None [CR; LF; LF]) boot) = 0%nat.
Proof.
  apply (empty_lines_skipped (fun _ => true) 61 [CR; LF; LF] boot); reflexivity.
Defined.

Lemma lines_handed_over_witness :
  trace (exec (for_each (Gateway.serial_byte (fun _ => true))
                 (feed (map list_ascii_of_string ["TO:20:OPEN"; "HELLO"]))) boot) =
  trace (exec (for_each (Gateway.forwardSerialToRadio (fun _ => true))
                 ["TO:20:OPEN"; "HELLO"]) boot).
Proof.
  apply (lines_handed_over (fun _ => true) ["TO:20:OPEN"; "HELLO"] boot).
  - repeat constructor; try discriminate; cbn; lia.
  - reflexivity.
  - reflexivity.
Defined.

Lemma line_ends_at_nul_witness :
  trace (exec (for_each (Gateway.serial_byte (fun _ => true))
                 ((list_ascii_of_string "TO:20:AB" ++ NUL :: ["C"%char]) ++ [LF]))
           boot) =
  trace (exec (Gateway.forwardSerialToRadio (fun _ => true) "TO:20:AB") boot).
Proof.
  apply (line_ends_at_nul (fun _ => true) "TO:20:AB" ["C"%char] boot).
  - cbn. repeat split; discriminate.
  - split; [reflexivity | cbn; lia].
  - reflexivity.
  - reflexivity.
Defined.

Lemma unnumbered_destination_is_zero_witness :
  exists evs,
    trace (exec (Gateway.forwardSerialToRadio (fun _ => true) "TO:gate:OPEN") boot)
      = trace boot ++ evs /\
    radio_sends evs = [RadioSend 0 "OPEN" 4] /\
    serial_out evs =
      (SENT_TO_OPEN ++ "0" ++ PAYLOAD_OPEN ++ "OPEN" ++ CLOSE_STR ++ CRLF)%string.
Proof.
  apply (unnumbered_destination_is_zero (fun _ => true) "gate" "OPE" ""
           "N"%char boot); reflexivity.
Defined.

End GatewayRunFacts.

(** ** The two sketches together

    A frame sent by one sketch is received by the other as the bytes the
    sender handed to the radio driver. *)

Module LinkFacts.
Import CStr CStrFacts GatewaySpec.
Local Open Scope list_scope.

(** The frame the node [node] receives when [e] is a send to it by
    [sender]: the first [len] bytes of the buffer, with the strength the
    receiver measures. *)
Definition heard_by (node sender rssi : Z) (e : event) : option frame :=
  match e with
  | RadioSend dest buf len =>
      if dest =? node
      then Some (mkFrame sender
                   (firstn (Z.to_nat len) (list_ascii_of_string buf)) rssi)
      else None
  | _ => None
  end.

Section Facts.
Variable send_ok : nat -> bool.
Variable env : Z -> Gate.inputs.
Variable fmt_f2 : F32.float -> string.

Lemma take_bytes (n : nat) (s : string) :
  list_ascii_of_string (take n s) = firstn n (list_ascii_of_string s).
Proof.
  revert s. induction n as [|n IH]; intros [|c s]; cbn; auto.
  now rewrite IH.
Qed.

Lemma nul_free_take (n : nat) (s : string) : nul_free s -> nul_free (take n s).
Proof.
  revert s. induction n as [|n IH]; intros [|c s]; cbn; auto.
  intros [H1 H2]. split; auto.
Qed.

(** From the serial line to the actuator: a line [TO:<dest>:<text>] whose
    destination is the gate node and whose text has at most 127 bytes, no
    NUL and no line end at its end makes the gateway send one frame; the
    gate node decodes that frame to the same text, writes its log line,
    pulses the output the text names, if any, and answers ACK, then
    telemetry. *)
Theorem line_reaches_actuator (dest body : string) (x : ascii) (rssi : Z)
    (w : Gateway.state) (g : Gate.state) :
  colon_free dest = true ->
  to_uint8 (atoi dest) = Gate.RF_NODE_ID ->
  line_end x = false ->
  let text := (body ++ String x "")%string in
  nul_free text -> (String.length text <= 127)%nat ->
  exists sent e f g',
    Gateway.trace
      (exec (Gateway.forwardSerialToRadio send_ok ("TO:" ++ dest ++ ":" ++ text)) w)
      = Gateway.trace w ++ sent /\
    Gateway.radio_sends sent = [e] /\
    heard_by Gate.RF_NODE_ID Gateway.RF_GATEWAY_ID rssi e = Some f /\
    Gate.command_text f = text /\
    Gate.trace (exec (Gate.on_receive env fmt_f2 f) g) =
      Gate.trace g ++ GateFacts.prints f ++ GateFacts.pulse_of text
      ++ [RadioSend Gate.RF_GATEWAY_ID "ACK" 3; Delay 50;
          GateFacts.telemetry_event env fmt_f2 g'].
Proof.
  intros Hd Hn Hx text Nt Lt.
  pose proof (GatewayFacts.forward_valid send_ok dest body "" x w Hd Hx eq_refl) as F.
  cbv zeta in F. fold text in F.
  rewrite GatewayFacts.append_nil_r in F.
  rewrite F. unfold GatewayFacts.extend. cbn [Gateway.trace].
  rewrite Hn.
  set (e := RadioSend Gate.RF_NODE_ID (take 191 text)
              (Z.of_nat (Nat.min 191 (String.length text)))).
  set (f := mkFrame Gateway.RF_GATEWAY_ID (list_ascii_of_string text) rssi).
  assert (T : take 191 text = text) by (apply GatewayFacts.take_all; lia).
  assert (C : Gate.command_text f = text).
  { apply GateRunFacts.command_text_whole; assumption. }
  eexists. exists e, f. eexists.
  split; [reflexivity|]. split; [|split; [|split; [exact C|]]].
  - unfold GatewayFacts.outcome.
    destruct (send_ok _); reflexivity.
  - unfold heard_by, e. rewrite Z.eqb_refl, T, Nat2Z.id.
    unfold f. do 2 f_equal.
    apply firstn_all2. rewrite GateRunFacts.length_bytes. lia.
  - rewrite GateFacts.on_receive_exec. cbn [Gate.trace]. rewrite C.
    reflexivity.
Qed.

Variable RH_RF69_MAX_MESSAGE_LEN : Z.

Lemma lf_free_take (n : nat) (s : string) :
  lf_free s = true -> lf_free (take n s) = true.
Proof.
  unfold lf_free. revert s. induction n as [|n IH]; intros [|c s]; cbn; auto.
  intros H. apply andb_true_iff in H. destruct H as [H1 H2].
  now rewrite H1, IH.
Qed.

Lemma lf_free_bytes (s : string) :
  lf_free s = true -> count_occ ascii_dec (list_ascii_of_string s) LF = 0%nat.
Proof.
  unfold lf_free. induction s as [|c s IH]; cbn; [reflexivity|]. intros H.
  apply andb_true_iff in H. destruct H as [H1 H2].
  apply negb_true_iff, Ascii.eqb_neq in H1.
  destruct (ascii_dec c LF); [contradiction | auto].
Qed.

Lemma count_firstn (n : nat) (l : list ascii) :
  count_occ ascii_dec l LF = 0%nat ->
  count_occ ascii_dec (firstn n l) LF = 0%nat.
Proof.
  revert l. induction n as [|n IH]; intros [|c l]; cbn; auto.
  destruct (ascii_dec c LF); [discriminate | auto].
Qed.

Lemma lf_free_quoted (s : string) : lf_free s = true -> lf_free (quoted s) = true.
Proof.
  intros H. unfold quoted. change (String QUOTE (s ++ String QUOTE ""))%string
    with (String QUOTE "" ++ s ++ String QUOTE "")%string.
  now rewrite !GatewayFacts.lf_free_append, H.
Qed.

Lemma lf_free_telemetry (t : Gate.telemetry) :
  (forall v, lf_free (fmt_f2 v) = true) ->
  lf_free (Gate.t_gate_state t) = true ->
  lf_free (Gate.format_telemetry fmt_f2 t) = true.
Proof.
  intros Hf Hg. unfold Gate.format_telemetry.
  rewrite !GatewayFacts.lf_free_append, !Hf, !GatewayFacts.lf_free_dec.
  rewrite (lf_free_quoted _ Hg).
  assert (B : forall b, lf_free (Gate.bit b) = true) by (intros []; reflexivity).
  rewrite !B.
  assert (P : lf_free (Gate.pct_text (Gate.t_battery_pct t)) = true).
  { unfold Gate.pct_text. destruct (Gate.t_battery_pct t);
      [apply GatewayFacts.lf_free_dec | reflexivity]. }
  rewrite P. reflexivity.
Qed.

(** From the node to the serial port: when the rendering of [%.2f] holds
    no line feed, a telemetry frame of the gate node, received by the
    gateway, is written as one object on exactly one serial line. *)
Theorem telemetry_is_one_line (rssi : Z) (g : Gate.state) (w : Gateway.state) :
  (forall v, lf_free (fmt_f2 v) = true) ->
  exists f evs,
    heard_by Gateway.RF_GATEWAY_ID Gate.RF_NODE_ID rssi
      (GateFacts.telemetry_event env fmt_f2 g) = Some f /\
    Gateway.trace (exec (Gateway.on_receive RH_RF69_MAX_MESSAGE_LEN f) w)
      = Gateway.trace w ++ evs /\
    Gateway.radio_sends evs = [] /\
    count_char LF (Gateway.serial_out evs) = 1%nat /\
    exists body, lf_free body = true /\
                 Gateway.serial_out evs = (body ++ String LF "")%string.
Proof.
  intros Hf. unfold GateFacts.telemetry_event, heard_by. cbv zeta.
  rewrite Z.eqb_refl.
  set (text := Gate.format_telemetry fmt_f2 (fst (Gate.snapshot env g))).
  set (f := mkFrame _ _ _).
  exists f, (GatewayFacts.frame_events RH_RF69_MAX_MESSAGE_LEN f).
  split; [reflexivity|].
  assert (Lt : lf_free text = true).
  { apply lf_free_telemetry; [exact Hf|].
    change (Gate.t_gate_state (fst (Gate.snapshot env g)))
      with (Gate.gate_state_of
              (Gate.t_limit_open (fst (Gate.snapshot env g)))
              (Gate.t_limit_closed (fst (Gate.snapshot env g)))).
    unfold Gate.gate_state_of.
    repeat match goal with
           | |- context [if ?b then _ else _] => destruct b
           end; reflexivity. }
  set (payload := firstn (Z.to_nat (Z.min (DATALEN f) RH_RF69_MAX_MESSAGE_LEN))
                    (DATA f)).
  assert (Lp : count_occ ascii_dec payload LF = 0%nat).
  { unfold payload, f. cbn [DATA]. do 2 apply count_firstn.
    apply lf_free_bytes, lf_free_take, Lt. }
  assert (Le : lf_free (escape payload) = true).
  { clear -Lp. induction payload as [|c r IH]; [reflexivity|].
    cbn [count_occ] in Lp. destruct (ascii_dec c LF) as [|N]; [discriminate|].
    cbn [escape]. rewrite GatewayFacts.lf_free_append, (IH Lp), andb_true_r.
    apply Ascii.eqb_neq in N. unfold escape_byte.
    destruct (_ || _); unfold lf_free; cbn; now rewrite N. }
  split; [now rewrite GatewayFacts.frame_events_exec|].
  split.
  { unfold GatewayFacts.frame_events. cbv zeta.
    rewrite !GatewayFacts.radio_sends_app, GatewayFacts.radio_sends_escaped.
    reflexivity. }
  rewrite GatewayRunFacts.frame_serial_out. fold payload.
  set (head := (Gateway.SRC_OPEN ++ dec (SENDERID f) ++ Gateway.RSSI_OPEN
                ++ dec (RSSI f) ++ Gateway.PAYLOAD_OPEN ++ escape payload
                ++ Gateway.CLOSE_STR ++ String CR "")%string).
  assert (Lh : lf_free head = true).
  { unfold head. rewrite !GatewayFacts.lf_free_append, !GatewayFacts.lf_free_dec, Le.
    reflexivity. }
  assert (E : (Gateway.SRC_OPEN ++ dec (SENDERID f) ++ Gateway.RSSI_OPEN
               ++ dec (RSSI f) ++ Gateway.PAYLOAD_OPEN ++ escape payload
               ++ Gateway.CLOSE_STR ++ CRLF)%string
              = (head ++ String LF "")%string).
  { unfold head, CRLF.
    rewrite !GatewayFacts.append_assoc. reflexivity. }
  rewrite E. split.
  - rewrite GatewayFacts.count_char_append,
      (GatewayFacts.lf_free_count _ Lh). reflexivity.
  - exists head. now split.
Qed.

End Facts.

Lemma line_reaches_actuator_witness :
  exists sent e f g',
    Gateway.trace
      (exec (Gateway.forwardSerialToRadio (fun _ => true) "TO:20:OPEN")
         Gateway.boot)
      = Gateway.trace Gateway.boot ++ sent /\
    Gateway.radio_sends sent = [e] /\
    heard_by Gate.RF_NODE_ID Gateway.RF_GATEWAY_ID (-60) e = Some f /\
    Gate.command_text f = "OPEN" /\
    Gate.trace (exec (Gate.on_receive GateRunFacts.quiet GateRunFacts.two_places f)
                  Gate.boot) =
      Gate.trace Gate.boot ++ GateFacts.prints f ++ GateFacts.pulse_of "OPEN"
      ++ [RadioSend Gate.RF_GATEWAY_ID "ACK" 3; Delay 50;
          GateFacts.telemetry_event GateRunFacts.quiet GateRunFacts.two_places g'].
Proof.
  apply (line_reaches_actuator (fun _ => true) GateRunFacts.quiet
           GateRunFacts.two_places "20" "OPE" "N"%char (-60)
           Gateway.boot Gate.boot).
  - reflexivity.
  - reflexivity.
  - reflexivity.
  - cbn. repeat split; discriminate.
  - cbn. lia.
Defined.

Lemma telemetry_is_one_line_witness :
  exists f evs,
    heard_by Gateway.RF_GATEWAY_ID Gate.RF_NODE_ID (-60)
      (GateFacts.telemetry_event GateRunFacts.quiet GateRunFacts.two_places
         Gate.boot) = Some f /\
    Gateway.trace (exec (Gateway.on_receive 61 f) Gateway.boot)
      = Gateway.trace Gateway.boot ++ evs /\
    Gateway.radio_sends evs = [] /\
    count_char LF (Gateway.serial_out evs) = 1%nat /\
    exists body, lf_free body = true /\
                 Gateway.serial_out evs = (body ++ String LF "")%string.
Proof.
  apply (telemetry_is_one_line GateRunFacts.quiet GateRunFacts.two_places 61
           (-60) Gate.boot Gateway.boot).
  intros v. reflexivity.
Defined.

End LinkFacts.
